(** * streaming-server: stream identity, ref-graph and socket admission

    A shallow embedding of [pkg/stream/stream.go] and
    [pkg/socket/server/server.go], with the properties their specification
    states about them.

    Go strings are byte strings and are modelled as [string]; Go maps are
    [gmap]s; [(T, error)] results are sums; the clock, the provider
    responses and the collaborating packages that are not part of these two
    files are explicit inputs. *)

From Stdlib Require Import ZArith QArith Ascii.
From Equations Require Import Equations.
From stdpp Require Import gmap strings list.

Local Open Scope string_scope.
Local Open Scope list_scope.
Local Open Scope nat_scope.

(** Go's [error] values are built by [fmt.Errorf] and only ever compared with
    [nil] or logged, so an error is its message; a [(T, error)] result is
    either the value or the error. *)
Definition error := string.

Inductive result (A : Type) : Type :=
| Ok (a : A)
| Err (e : error).
Arguments Ok {A} a.
Arguments Err {A} e.

Definition is_Ok {A} (r : result A) : bool :=
  match r with Ok _ => true | Err _ => false end.

(** ** Go's [strings] package, as far as the program uses it *)
Module GoStrings.

(** [strings.HasPrefix(s, prefix)]. *)
Fixpoint HasPrefix (s prefix : string) : bool :=
  match prefix, s with
  | EmptyString, _ => true
  | String _ _, EmptyString => false
  | String a p, String b s' => if decide (a = b) then HasPrefix s' p else false
  end.

(** The slice expressions [s[:n]] and [s[n:]]; the program only takes them
    at indices that [Index] returned, which are in range. *)
Fixpoint slice_to (n : nat) (s : string) : string :=
  match n, s with
  | S n', String c s' => String c (slice_to n' s')
  | _, _ => EmptyString
  end.

Fixpoint slice_from (n : nat) (s : string) : string :=
  match n, s with
  | S n', String _ s' => slice_from n' s'
  | _, _ => s
  end.

(** [strings.Index(s, substr)]: the byte offset of the leftmost occurrence,
    [None] for Go's [-1]. *)
Fixpoint Index (s substr : string) : option nat :=
  if HasPrefix s substr then Some 0
  else match s with
       | EmptyString => None
       | String _ s' => S <$> Index s' substr
       end.

(** [strings.Contains(s, substr)]. *)
Definition Contains (s substr : string) : bool :=
  match Index s substr with Some _ => true | None => false end.

(** Each round of [Split] continues on a shorter string: an occurrence
    lies within the string, and the slice after it drops at least the
    separator. *)
Lemma length_slice_from n s : String.length (slice_from n s) = String.length s - n.
Proof.
  revert s; induction n as [|n IH]; intros [|c s]; simpl; try lia. apply IH.
Qed.

Lemma HasPrefix_length s p : HasPrefix s p = true → String.length p ≤ String.length s.
Proof.
  revert s; induction p as [|a p IH]; intros [|b s]; simpl; try lia; try done.
  case_decide; [|done]. intros Hp. apply IH in Hp. lia.
Qed.

Lemma Index_bound s substr m :
  Index s substr = Some m → m + String.length substr ≤ String.length s.
Proof.
  revert m; induction s as [|c s IH]; intros m; cbn [Index].
  - destruct (HasPrefix "" substr) eqn:E; [|done].
    intros [= <-]. by apply HasPrefix_length in E.
  - destruct (HasPrefix (String c s) substr) eqn:E.
    + intros [= <-]. by apply HasPrefix_length in E.
    + destruct (Index s substr) as [k|] eqn:Ek; [|done].
      intros [= <-]. specialize (IH k eq_refl). simpl. lia.
Qed.

(** Go's [explode]: the pieces of a split on the empty separator, one per
    UTF-8 sequence, which on the single-byte strings modelled here is one
    per byte. The separators of this program are all non-empty literals. *)
Fixpoint explode (s : string) : list string :=
  match s with
  | EmptyString => []
  | String c s' => String c EmptyString :: explode s'
  end.

(** Keeps the equation [Index s sep = r] in scope of the branch on [r]. *)
Definition inspect {A : Type} (x : A) : { y : A | x = y } := exist _ x eq_refl.

(** [strings.Split(s, sep)]: Go's [genSplit] finds the leftmost occurrence
    with [Index], emits [s[:m]], continues with [s[m+len(sep):]] and emits
    what is left when no occurrence remains. *)
Equations? Split (s sep : string) : list string by wf (String.length s) lt :=
  Split s sep with decide (sep = "") := {
    | left _ => explode s
    | right Hne with inspect (Index s sep) := {
      | exist _ None _ => [s]
      | exist _ (Some m) Hm =>
          slice_to m s :: Split (slice_from (m + String.length sep) s) sep } }.
Proof.
  apply Index_bound in Hm. rewrite length_slice_from.
  destruct sep; [done|]. simpl in *. lia.
Qed.

(** The piece of [s] before the first [sep], all of [s] when there is none:
    element [0] of [Split s sep]. *)
Definition upTo (sep s : string) : string :=
  match Index s sep with Some m => slice_to m s | None => s end.

(** All byte offsets at which [substr] occurs in [s], overlapping
    occurrences included. *)
Fixpoint occurrences (s substr : string) : list nat :=
  (if HasPrefix s substr then [0] else []) ++
  match s with
  | EmptyString => []
  | String _ s' => S <$> occurrences s' substr
  end.

End GoStrings.

(** ** [pkg/stream/stream.go] *)
Module Stream.
Import GoStrings.

(** *** Identity extraction *)

(** [regexp.MatchString("watch\\?v=", s)]: the pattern is the literal
    [watch?v=] (its only operator is the escaped question mark) and is not
    anchored, so it matches exactly when the literal occurs in [s]; the
    pattern compiles, so the error result the source discards is [nil]. *)
Definition matchWatchMarker (s : string) : bool := Contains s "watch?v=".

(** [ytVideoIdFromUrl]. The index expressions [segs[len(segs)-1]],
    [idSegs[1]] and [ampSegs[0]] are total lookups here; they are in range
    whenever they are reached ([ytVideoIdFromUrl_in_range]), so the default
    of the lookup, where Go would panic, is never returned. *)
Definition ytVideoIdFromUrl (videoUrl : string) : result string :=
  let segs := Split videoUrl "/" in
  if decide (length segs < 2) then Err "invalid url"
  else
    let lastSeg := segs !!! (length segs - 1) in
    if matchWatchMarker lastSeg then
      let idSegs := Split lastSeg "watch?v=" in
      let ampSegs := Split (idSegs !!! 1) "&" in
      if decide (1 < length ampSegs) then Ok (ampSegs !!! 0)
      else Ok (idSegs !!! 1)
    else Ok lastSeg.

(** [twitchVideoIdFromUrl]. *)
Definition twitchVideoIdFromUrl (videoUrl : string) : result string :=
  let segs := Split videoUrl "/videos/" in
  if decide (length segs ≠ 2) then Err "invalid url"
  else Ok (segs !!! 1).

(** [soundCloudIdFromUrl]; it cannot fail. *)
Definition soundCloudIdFromUrl (permalink : string) : result string :=
  let segs := Split permalink "/" in
  Ok (segs !!! (length segs - 1)).

(** *** Time, floats and raw bytes *)

(** [time.Time] as an instant on the clock; [time.Now()] is an input. *)
Definition Time := Z.

(** [[]byte]: a byte string. [None] stands for a [nil] slice where the
    source passes one, [Some ""] for [[]byte{}]. *)
Definition bytes := string.

(** [float64], restricted to the finite values the modelled code computes,
    which are rationals. *)
Definition float64 := Q.

(** The integer a [float64] conversion of an [int] yields: exact up to
    [2^53], beyond that rounded to 53 significant bits, ties to even. *)
Definition round53 (n : Z) : Z :=
  let a := Z.abs n in
  if (a <=? 2 ^ 53)%Z then n
  else
    let k := (Z.log2 a - 52)%Z in
    let q := (a / 2 ^ k)%Z in
    let r := (a mod 2 ^ k)%Z in
    let half := (2 ^ (k - 1))%Z in
    let q' := if (r <? half)%Z then q
              else if (half <? r)%Z then (q + 1)%Z
              else if Z.even q then q else (q + 1)%Z in
    (Z.sgn n * q' * 2 ^ k)%Z.

(** The conversion [float64(n)] of an [int]. *)
Definition float64_of_int (n : Z) : float64 := inject_Z (round53 n).

(** *** Creation sources and references *)

(** [StreamCreationSource] with its two implementations. *)
Inductive StreamCreationSource : Type :=
| UnknownStreamCreationSourceSchema
| StreamCreationSourceSchema (SourceName : string).

Definition GetSourceName (c : StreamCreationSource) : string :=
  match c with
  | UnknownStreamCreationSourceSchema => "no source info"
  | StreamCreationSourceSchema name => name
  end.

Definition NewStreamCreationSource (name : string) : StreamCreationSource :=
  StreamCreationSourceSchema name.

(** [StreamRef]: anything with a [UUID() string] method. Two different
    references may report the same identity. *)
Class StreamRef (R : Type) := UUID : R → string.

(** *** Stream metadata: the ref-graph *)
Section Meta.
Context {R : Type} `{StreamRef R}.

(** [StreamMetaSchema]. The two maps are allocated by [NewStreamMeta], the
    only constructor the program uses. *)
Record StreamMetaSchema : Type := mkStreamMeta {
  CreationSource : StreamCreationSource;
  LastUpdated : Time;
  ParentRefs : gmap string R;
  LabelledRefs : gmap string R
}.

Definition GetCreationSource (s : StreamMetaSchema) : StreamCreationSource :=
  CreationSource s.

Definition SetCreationSource (source : StreamCreationSource) (s : StreamMetaSchema)
  : StreamMetaSchema :=
  mkStreamMeta source (LastUpdated s) (ParentRefs s) (LabelledRefs s).

Definition SetLastUpdated (t : Time) (s : StreamMetaSchema) : StreamMetaSchema :=
  mkStreamMeta (CreationSource s) t (ParentRefs s) (LabelledRefs s).

Definition GetLastUpdated (s : StreamMetaSchema) : Time := LastUpdated s.

(** [GetParentRefs]: the stored references; Go leaves the order of a map
    iteration open. *)
Definition GetParentRefs (s : StreamMetaSchema) : list R :=
  (map_to_list (ParentRefs s)).*2.

(** The methods below have a pointer receiver and mutate it: they return
    their result together with the receiver's new value. *)
Definition AddParentRef (ref : R) (s : StreamMetaSchema) : bool * StreamMetaSchema :=
  match ParentRefs s !! UUID ref with
  | Some _ => (false, s)
  | None =>
      (true, mkStreamMeta (CreationSource s) (LastUpdated s)
               (<[UUID ref := ref]> (ParentRefs s)) (LabelledRefs s))
  end.

Definition RemoveParentRef (ref : R) (s : StreamMetaSchema) : bool * StreamMetaSchema :=
  match ParentRefs s !! UUID ref with
  | Some _ =>
      (true, mkStreamMeta (CreationSource s) (LastUpdated s)
               (delete (UUID ref) (ParentRefs s)) (LabelledRefs s))
  | None => (false, s)
  end.

Definition SetLabelledRef (key : string) (value : R) (s : StreamMetaSchema)
  : bool * StreamMetaSchema :=
  match LabelledRefs s !! key with
  | Some _ =>
      (false, mkStreamMeta (CreationSource s) (LastUpdated s) (ParentRefs s)
                (<[key := value]> (LabelledRefs s)))
  | None =>
      (true, mkStreamMeta (CreationSource s) (LastUpdated s) (ParentRefs s)
               (<[key := value]> (LabelledRefs s)))
  end.

(** [GetLabelledRef]: [(ref, true)] is [Some ref], [(nil, false)] is [None]. *)
Definition GetLabelledRef (key : string) (s : StreamMetaSchema) : option R :=
  match LabelledRefs s !! key with
  | Some ref => Some ref
  | None => None
  end.

Definition RemoveLabelledRef (key : string) (s : StreamMetaSchema)
  : bool * StreamMetaSchema :=
  match LabelledRefs s !! key with
  | Some _ =>
      (true, mkStreamMeta (CreationSource s) (LastUpdated s) (ParentRefs s)
               (delete key (LabelledRefs s)))
  | None => (false, s)
  end.

(** [NewStreamMeta], with the reading of the clock as argument. *)
Definition NewStreamMeta (now : Time) : StreamMetaSchema :=
  mkStreamMeta UnknownStreamCreationSourceSchema now ∅ ∅.

(** *** Streams *)

Definition STREAM_TYPE_YOUTUBE := "youtube".
Definition STREAM_TYPE_LOCAL := "movie".
Definition STREAM_TYPE_REMOTE := "movie".
Definition STREAM_TYPE_TWITCH := "twitch".
Definition STREAM_TYPE_TWITCH_CLIP := "twitch#clip".
Definition STREAM_TYPE_SOUNDCLOUD := "soundcloud".

(** [StreamSchema]. *)
Record StreamSchema : Type := mkStreamSchema {
  Kind : string;
  Name : string;
  Url : string;
  Duration : float64;
  Thumbnail : string;
  Meta : StreamMetaSchema
}.

Definition StreamSchema_GetStreamURL (s : StreamSchema) : string := Url s.
Definition StreamSchema_UUID (s : StreamSchema) : string := Url s.
Definition StreamSchema_GetName (s : StreamSchema) : string := Name s.
Definition StreamSchema_GetKind (s : StreamSchema) : string := Kind s.
Definition StreamSchema_GetDuration (s : StreamSchema) : float64 := Duration s.
Definition StreamSchema_Metadata (s : StreamSchema) : StreamMetaSchema := Meta s.

(** The implementations of the [Stream] interface: [*StreamSchema] itself
    and the provider variants, each of which embeds a [*StreamSchema] and
    carries its API key where it has one. *)
Inductive Stream : Type :=
| BareStream (schema : StreamSchema)
| YouTubeStream (apiKey : string) (schema : StreamSchema)
| LocalVideoStream (schema : StreamSchema)
| RemoteVideoStream (schema : StreamSchema)
| TwitchStream (schema : StreamSchema) (apiKey : string)
| TwitchClipStream (schema : StreamSchema) (apiKey : string)
| SoundCloudStream (schema : StreamSchema) (apiKey : string).

Definition schemaOf (s : Stream) : StreamSchema :=
  match s with
  | BareStream schema | YouTubeStream _ schema | LocalVideoStream schema
  | RemoteVideoStream schema | TwitchStream schema _ | TwitchClipStream schema _
  | SoundCloudStream schema _ => schema
  end.

(** No variant overrides [UUID] or [GetStreamURL]: the embedded schema's
    methods are promoted. *)
Definition Stream_UUID (s : Stream) : string := StreamSchema_UUID (schemaOf s).
Definition GetStreamURL (s : Stream) : string := StreamSchema_GetStreamURL (schemaOf s).
Definition GetKind (s : Stream) : string := StreamSchema_GetKind (schemaOf s).

(** The keys of [pkg/api/config], which is not part of these files. *)
Record ApiConfig : Type := mkApiConfig {
  YT_API_KEY : string;
  TWITCH_API_KEY : string;
  SC_API_KEY : string
}.

Section Factories.
Variable apiconfig : ApiConfig.
Variable now : Time.

(** A schema literal that sets [Url], [Thumbnail] and [Kind] and leaves the
    other fields at their zero values. *)
Definition newSchema (url thumb kind : string) : StreamSchema :=
  mkStreamSchema kind "" url 0%Q thumb (NewStreamMeta now).

Definition NewYouTubeStream (videoUrl : string) : Stream :=
  let segs := Split videoUrl "&" in
  let videoUrl := if decide (1 < length segs) then segs !!! 0 else videoUrl in
  let thumb :=
    match ytVideoIdFromUrl videoUrl with
    | Ok id => "https://img.youtube.com/vi/" +:+ id +:+ "/default.jpg"
    | Err _ => ""
    end in
  YouTubeStream (YT_API_KEY apiconfig) (newSchema videoUrl thumb STREAM_TYPE_YOUTUBE).

Definition NewLocalVideoStream (filepath : string) : Stream :=
  LocalVideoStream (newSchema filepath "" STREAM_TYPE_LOCAL).

Definition NewRemoteVideoStream (url : string) : Stream :=
  RemoteVideoStream (newSchema url "" STREAM_TYPE_REMOTE).

Definition NewTwitchStream (videoUrl : string) : Stream :=
  TwitchStream (newSchema videoUrl "" STREAM_TYPE_TWITCH) (TWITCH_API_KEY apiconfig).

Definition NewTwitchClipStream (videoUrl : string) : Stream :=
  TwitchClipStream (newSchema videoUrl "" STREAM_TYPE_TWITCH_CLIP) (TWITCH_API_KEY apiconfig).

Definition NewSoundCloudStream (videoUrl : string) : Stream :=
  SoundCloudStream (newSchema videoUrl "" STREAM_TYPE_SOUNDCLOUD) (SC_API_KEY apiconfig).

End Factories.

(** *** [SetInfo] *)
Section SetInfo.

(** [json.Unmarshal(data, s)] for [s *StreamSchema]. The library first
    scans the whole input for well-formedness ([checkValid]) and returns the
    syntax error before it writes anything; only well-formed input reaches
    the decoder, which fills the target and may still report an error. The
    scanner and the decoder are the library's and are inputs here. *)
Variable json_checkValid : bytes → option error.
Variable json_decode : bytes → StreamSchema → StreamSchema * option error.

Definition json_Unmarshal (data : bytes) (s : StreamSchema) : StreamSchema * option error :=
  match json_checkValid data with
  | Some err => (s, Some err)
  | None => json_decode data s
  end.

Definition withLastUpdated (t : Time) (s : StreamSchema) : StreamSchema :=
  mkStreamSchema (Kind s) (Name s) (Url s) (Duration s) (Thumbnail s)
    (SetLastUpdated t (Meta s)).

(** [StreamSchema.SetInfo], with the reading of the clock as argument: the
    receiver's new value and the returned error ([None] for [nil]). *)
Definition SetInfo (now : Time) (data : bytes) (s : StreamSchema)
  : StreamSchema * option error :=
  let s := withLastUpdated now s in
  json_Unmarshal data s.

End SetInfo.

(** *** [FetchMetadata] *)

#[local] Set Warnings "-register-all".

(** What a call of [FetchMetadata] does, in order: calls of the callback
    with the stream, the data ([None] for [nil]) and the error ([None] for
    [nil]); requests sent to a provider; and goroutines started, each with
    what it does in turn. *)
Inductive action : Type :=
| Callback (s : StreamSchema) (data : option bytes) (err : option error)
| HttpGet (url : string)
| Go (body : list action).

(** A JSON value of the payload maps. *)
Inductive jsonValue : Type :=
| JString (s : string)
| JNumber (x : float64).

(** The calls of the callback in a list of actions with their data and
    error, the requests sent and the number of goroutines started, those of
    the goroutines included. *)
Fixpoint callsOf (a : action) : list (option bytes * option error) :=
  match a with
  | Callback _ data err => [(data, err)]
  | HttpGet _ => []
  | Go body => (fix go (l : list action) :=
                  match l with [] => [] | x :: l' => callsOf x ++ go l' end%list) body
  end.

Fixpoint requestsOf (a : action) : list string :=
  match a with
  | Callback _ _ _ => []
  | HttpGet url => [url]
  | Go body => (fix go (l : list action) :=
                  match l with [] => [] | x :: l' => requestsOf x ++ go l' end%list) body
  end.

Fixpoint spawnsOf (a : action) : nat :=
  match a with
  | Callback _ _ _ | HttpGet _ => 0
  | Go body => S ((fix go (l : list action) :=
                     match l with [] => 0 | x :: l' => spawnsOf x + go l' end) body)
  end.

Section Fetch.
(** [strconv.Quote], which [fmt] applies for the verb [%q]. *)
Variable strconv_Quote : string → string.

(** [StreamSchema.FetchMetadata]. *)
Definition StreamSchema_FetchMetadata (s : StreamSchema) : list action :=
  [Callback s None
     (Some ("Stream schema of kind " +:+ strconv_Quote (Kind s)
            +:+ " has no FetchMetadata method implemented."))].

(** [SoundCloudResponseItem], with the nested user's [avatar_url]. *)
Record SoundCloudResponseItem : Type := mkSoundCloudResponseItem {
  sc_Title : string;
  sc_Duration : Z;
  sc_User_Thumb : string
}.

(** The payload map the SoundCloud goroutine builds from a decoded
    response. [Duration] is an [int] and the constant [1000.0] is untyped,
    so [Duration / 1000.0] is Go's integer division, which truncates toward
    zero, and the conversion to [float64] comes after it. *)
Definition soundCloudVideoItem (item : SoundCloudResponseItem) : gmap string jsonValue :=
  <["thumb" := JString (sc_User_Thumb item)]>
    (<["duration" := JNumber (float64_of_int (sc_Duration item ÷ 1000))]>
       (<["name" := JString (sc_Title item)]> ∅)).

(** The world the goroutine talks to: the HTTP client with the body of a
    response as [ioutil.ReadAll] returns it, [url.QueryEscape], and
    [encoding/json] at the two types used. *)
Variable apiconfig : ApiConfig.
Variable http_Get : string → result (result bytes).
Variable url_QueryEscape : string → string.
Variable json_Unmarshal_SoundCloud : bytes → result SoundCloudResponseItem.
Variable json_Marshal : gmap string jsonValue → result bytes.

(** The body of the goroutine of [SoundCloudStream.FetchMetadata]. *)
Definition soundCloudFetch (s : StreamSchema) (videoId apiKey : string) : list action :=
  let permalink := url_QueryEscape videoId in
  let resolveUrl :=
    "https://api.soundcloud.com/resolve.json?url=" +:+ permalink
    +:+ "&client_id=" +:+ SC_API_KEY apiconfig in
  HttpGet resolveUrl ::
  match http_Get resolveUrl with
  | Err err => [Callback s None (Some err)]
  | Ok body =>
      match body with
      | Err err => [Callback s None (Some err)]
      | Ok data =>
          match json_Unmarshal_SoundCloud data with
          | Err err => [Callback s None (Some err)]
          | Ok scResponseItem =>
              match json_Marshal (soundCloudVideoItem scResponseItem) with
              | Err err => [Callback s None (Some err)]
              | Ok jsonData => [Callback s (Some jsonData) None]
              end
          end
      end
  end.

(** [SoundCloudStream.FetchMetadata]. *)
Definition SoundCloudStream_FetchMetadata (s : StreamSchema) (apiKey : string) : list action :=
  [Go (soundCloudFetch s (Url s) apiKey)].

End Fetch.

(** *** The other variants' [FetchMetadata] *)

(** A value of the [map[string]interface{}] that [encoding/json] fills for
    [contentDetails]: a string, the [int64] that [ParseDuration] stores, or
    any other decoded value, kept as it came. *)
Inductive detail : Type :=
| DString (s : string)
| DInt64 (n : Z)
| DOther (raw : bytes).

(** [YouTubeVideoItem], with the title of the nested snippet, and the
    [Items] of a [YouTubeVideoListResponse]. A [nil] map reads like the
    empty one. *)
Record YouTubeVideoItem : Type := mkYouTubeVideoItem {
  yt_ContentDetails : gmap string detail;
  yt_Snippet_Title : string
}.

(** [TwitchResponseItem], with the URLs of its thumbnails. *)
Record TwitchResponseItem : Type := mkTwitchResponseItem {
  tw_Title : string;
  tw_Length : Z;
  tw_Thumbnails : list string
}.

(** [TwitchClipResponseItem], with the [medium] thumbnail and the URL of
    the vod. *)
Record TwitchClipResponseItem : Type := mkTwitchClipResponseItem {
  clip_Title : string;
  clip_Length : float64;
  clip_Thumbnails_Url : string;
  clip_Vod_Url : string
}.

(** A request built by [http.NewRequest] without a body, with the header
    fields set on it, spelled as the source spells them. *)
Record httpRequest : Type := mkHttpRequest {
  req_method : string;
  req_url : string;
  req_header : gmap string string
}.

(** The libraries and packages the fetches call: [strconv.Quote];
    [http.Get] and [client.Do] with the body of the response as
    [ioutil.ReadAll] returns it; the check [http.NewRequest] makes of its
    arguments ([None] when it accepts them); [url.QueryEscape]; [url.Parse]
    followed by [Query().Get(key)]; [encoding/json] at the types used;
    [util.HumanTimeToSeconds] followed by the conversion of its result to
    [int64]; [pathutil.StreamDataFilePathFromUrl]; the container probing
    of [avformat] on a path; and the division of two [float64]s. *)
Record Libraries : Type := mkLibraries {
  strconv_Quote : string → string;
  apiconfig : ApiConfig;
  http_Get : string → result (result bytes);
  http_NewRequest : string → string → option error;
  client_Do : httpRequest → result (result bytes);
  url_QueryEscape : string → string;
  url_Parse_Query_Get : string → string → result string;
  json_Unmarshal_SoundCloud : bytes → result SoundCloudResponseItem;
  json_Unmarshal_YouTube : bytes → result (list YouTubeVideoItem);
  json_Unmarshal_Twitch : bytes → result TwitchResponseItem;
  json_Unmarshal_TwitchClip : bytes → result TwitchClipResponseItem;
  json_Marshal : gmap string jsonValue → result bytes;
  json_Marshal_details : gmap string detail → result bytes;
  HumanTimeToSeconds : string → result Z;
  StreamDataFilePathFromUrl : string → string;
  avformat_NewContextForInput : option error;
  avformat_OpenInput : string → option error;
  avformat_FindStreamInfo : string → option error;
  avformat_Duration : string → Z;
  float64_div : float64 → float64 → float64
}.

Section Variants.
Variable lib : Libraries.

(** [twitchClipIdFromUrl]. *)
Definition twitchClipIdFromUrl (clipUrl : string) : result string :=
  match url_Parse_Query_Get lib clipUrl "clip" with
  | Err err => Err err
  | Ok slug =>
      if decide (String.length slug = 0)
      then Err "invalid clip url - missing clip parameter"
      else Ok slug
  end.

(** [YouTubeVideoItem.ParseDuration]: the error ([None] for [nil]) and the
    receiver's new value. *)
Definition ParseDuration (yt : YouTubeVideoItem) : option error * YouTubeVideoItem :=
  match yt_ContentDetails yt !! "duration" with
  | None => (Some ("missing video data key " +:+ strconv_Quote lib "duration"), yt)
  | Some duration =>
      match duration with
      | DString durationStr =>
          let segs := Split durationStr "PT" in
          if decide (length segs < 2) then (Some "invalid time format", yt)
          else
            match HumanTimeToSeconds lib (segs !!! 1) with
            | Err err => (Some err, yt)
            | Ok timeSecs =>
                (None, mkYouTubeVideoItem
                         (<["duration" := DInt64 timeSecs]> (yt_ContentDetails yt))
                         (yt_Snippet_Title yt))
            end
      | _ => (Some "duration value is not a string", yt)
      end
  end.

(** The goroutine of [YouTubeStream.FetchMetadata]. *)
Definition youTubeFetch (s : StreamSchema) (videoId apiKey : string) : list action :=
  let url :=
    "https://www.googleapis.com/youtube/v3/videos?id=" +:+ videoId
    +:+ "&key=" +:+ apiKey +:+ "&part=contentDetails,snippet" in
  HttpGet url ::
  match http_Get lib url with
  | Err err => [Callback s None (Some err)]
  | Ok body =>
      match body with
      | Err err => [Callback s None (Some err)]
      | Ok data =>
          match json_Unmarshal_YouTube lib data with
          | Err err => [Callback s None (Some err)]
          | Ok [] =>
              [Callback s None
                 (Some ("no contentData found for video id " +:+ strconv_Quote lib videoId))]
          | Ok (videoData :: _) =>
              match ParseDuration videoData with
              | (Some err, _) => [Callback s None (Some err)]
              | (None, videoData) =>
                  match json_Marshal_details lib
                          (<["name" := DString (yt_Snippet_Title videoData)]>
                             (yt_ContentDetails videoData)) with
                  | Err err => [Callback s None (Some err)]
                  | Ok jsonData => [Callback s (Some jsonData) None]
                  end
              end
          end
      end
  end.

(** [YouTubeStream.FetchMetadata]. *)
Definition YouTubeStream_FetchMetadata (apiKey : string) (s : StreamSchema) : list action :=
  match ytVideoIdFromUrl (Url s) with
  | Err err => [Callback s (Some "") (Some err)]
  | Ok videoId => [Go (youTubeFetch s videoId apiKey)]
  end.

(** [FetchVideoMetadata]. On an error its callers use the error only. *)
Definition FetchVideoMetadata (fpath : string) : result bytes :=
  match avformat_NewContextForInput lib with
  | Some err => Err ("error decoding stream information: " +:+ err)
  | None =>
      match avformat_OpenInput lib fpath with
      | Some err => Err ("error decoding stream information: " +:+ err)
      | None =>
          match avformat_FindStreamInfo lib fpath with
          | Some err => Err ("error decoding stream information: " +:+ err)
          | None =>
              let duration :=
                float64_div lib (float64_of_int (avformat_Duration lib fpath))
                  (float64_of_int 1000000) in
              match json_Marshal lib (<["duration" := JNumber duration]> ∅) with
              | Err err => Err err
              | Ok m => Ok m
              end
          end
      end
  end.

(** [LocalVideoStream.FetchMetadata] and [RemoteVideoStream.FetchMetadata]. *)
Definition LocalVideoStream_FetchMetadata (s : StreamSchema) : list action :=
  [Go (match FetchVideoMetadata (StreamDataFilePathFromUrl lib (Url s)) with
       | Err err => [Callback s (Some "") (Some err)]
       | Ok data => [Callback s (Some data) None]
       end)].

Definition RemoteVideoStream_FetchMetadata (s : StreamSchema) : list action :=
  [Go (match FetchVideoMetadata (Url s) with
       | Err err => [Callback s (Some "") (Some err)]
       | Ok data => [Callback s (Some data) None]
       end)].

(** The payload map of the Twitch goroutine: the thumbnail is set only
    when the response lists one. *)
Definition twitchVideoItem (item : TwitchResponseItem) : gmap string jsonValue :=
  let twitchVideoItem :=
    <["duration" := JNumber (float64_of_int (tw_Length item))]>
      (<["name" := JString (tw_Title item)]> ∅) in
  match tw_Thumbnails item with
  | [] => twitchVideoItem
  | url :: _ => <["thumb" := JString url]> twitchVideoItem
  end.

(** What both Twitch goroutines do once the request is built; the request
    [client.Do] sends is listed as the GET request it is. *)
Definition sendAndDecode {A} (s : StreamSchema) (req : httpRequest)
    (unmarshal : bytes → result A) (item : A → gmap string jsonValue) : list action :=
  HttpGet (req_url req) ::
  match client_Do lib req with
  | Err err => [Callback s None (Some err)]
  | Ok body =>
      match body with
      | Err err => [Callback s None (Some err)]
      | Ok data =>
          match unmarshal data with
          | Err err => [Callback s None (Some err)]
          | Ok responseItem =>
              match json_Marshal lib (item responseItem) with
              | Err err => [Callback s None (Some err)]
              | Ok jsonData => [Callback s (Some jsonData) None]
              end
          end
      end
  end.

(** The goroutine of [TwitchStream.FetchMetadata]. *)
Definition twitchFetch (s : StreamSchema) (videoId apiKey : string) : list action :=
  let url := "https://api.twitch.tv/kraken/videos/" +:+ videoId in
  match http_NewRequest lib "GET" url with
  | Some err => [Callback s None (Some err)]
  | None =>
      sendAndDecode s (mkHttpRequest "GET" url {["Client-ID" := apiKey]})
        (json_Unmarshal_Twitch lib) twitchVideoItem
  end.

(** [TwitchStream.FetchMetadata]. *)
Definition TwitchStream_FetchMetadata (s : StreamSchema) (apiKey : string) : list action :=
  match twitchVideoIdFromUrl (Url s) with
  | Err err => [Callback s (Some "") (Some err)]
  | Ok videoId => [Go (twitchFetch s videoId apiKey)]
  end.

(** The payload map of the Twitch clip goroutine. *)
Definition twitchClipItem (item : TwitchClipResponseItem) : gmap string jsonValue :=
  <["thumb" := JString (clip_Thumbnails_Url item)]>
    (<["duration" := JNumber (clip_Length item)]>
       (<["name" := JString (clip_Title item)]> ∅)).

(** The goroutine of [TwitchClipStream.FetchMetadata]. *)
Definition twitchClipFetch (s : StreamSchema) (videoId apiKey : string) : list action :=
  let url := "https://api.twitch.tv/kraken/clips/" +:+ videoId in
  match http_NewRequest lib "GET" url with
  | Some err => [Callback s None (Some err)]
  | None =>
      sendAndDecode s
        (mkHttpRequest "GET" url
           (<["Accept" := "application/vnd.twitchtv.v5+json"]> {["Client-ID" := apiKey]}))
        (json_Unmarshal_TwitchClip lib) twitchClipItem
  end.

(** [TwitchClipStream.FetchMetadata]. *)
Definition TwitchClipStream_FetchMetadata (s : StreamSchema) (apiKey : string) : list action :=
  match twitchClipIdFromUrl (Url s) with
  | Err err => [Callback s (Some "") (Some err)]
  | Ok videoId => [Go (twitchClipFetch s videoId apiKey)]
  end.

(** [Stream.FetchMetadata]: the method of the variant the value is of. *)
Definition FetchMetadata (s : Stream) : list action :=
  match s with
  | BareStream schema => StreamSchema_FetchMetadata (strconv_Quote lib) schema
  | YouTubeStream apiKey schema => YouTubeStream_FetchMetadata apiKey schema
  | LocalVideoStream schema => LocalVideoStream_FetchMetadata schema
  | RemoteVideoStream schema => RemoteVideoStream_FetchMetadata schema
  | TwitchStream schema apiKey => TwitchStream_FetchMetadata schema apiKey
  | TwitchClipStream schema apiKey => TwitchClipStream_FetchMetadata schema apiKey
  | SoundCloudStream schema apiKey =>
      SoundCloudStream_FetchMetadata (apiconfig lib) (http_Get lib) (url_QueryEscape lib)
        (json_Unmarshal_SoundCloud lib) (json_Marshal lib) schema apiKey
  end.

End Variants.

(** *** Sequences of ref-graph operations *)

(** A call of one of the mutating methods of [StreamMeta]. *)
Inductive metaOp : Type :=
| OpAddParentRef (ref : R)
| OpRemoveParentRef (ref : R)
| OpSetLabelledRef (key : string) (value : R)
| OpRemoveLabelledRef (key : string)
| OpSetLastUpdated (t : Time)
| OpSetCreationSource (source : StreamCreationSource).

Definition runOp (op : metaOp) (s : StreamMetaSchema) : StreamMetaSchema :=
  match op with
  | OpAddParentRef ref => (AddParentRef ref s).2
  | OpRemoveParentRef ref => (RemoveParentRef ref s).2
  | OpSetLabelledRef key value => (SetLabelledRef key value s).2
  | OpRemoveLabelledRef key => (RemoveLabelledRef key s).2
  | OpSetLastUpdated t => SetLastUpdated t s
  | OpSetCreationSource source => SetCreationSource source s
  end.

Definition runOps (ops : list metaOp) (s : StreamMetaSchema) : StreamMetaSchema :=
  foldl (λ s op, runOp op s) s ops.

End Meta.

End Stream.

(** ** [pkg/socket/server/server.go] *)
Module Server.
Import GoStrings.

Definition DEFAULT_NAMESPACE := "lobby".
Definition MAX_READ_BUF_SIZE := 1024.
Definition MAX_WRITE_BUF_SIZE := 1024.

Section Server.
(** The types of the packages around the server: connections, namespaces,
    upgraded transports and requests, and the state of the program the
    listeners and the handlers act on. *)
Context {Connection Namespace WsConn Request World : Type}.

(** [Request.Referer], [Request.URL.String], [Connection.Join] and
    [Namespace.Name]. *)
Context (Referer : Request → string) (URL_String : Request → string).
Context (Join : Connection → string → World → World) (Name : Namespace → string).

(** [ServerEventCallback]: a Go function value called for its effect. *)
Definition ServerEventCallback : Type := Connection → World → World.

(** [connection.ConnectionHandler] and [connection.NamespaceHandler], the
    interfaces of the two handlers a server holds. *)
Record ConnectionHandler : Type := mkConnectionHandler {
  NewConnection : string → WsConn → Request → World → Connection * World;
  Handle : Connection → World → World
}.

Record NamespaceHandler : Type := mkNamespaceHandler {
  NamespaceByName : string → World → option Namespace;
  NewNamespace : string → World → Namespace * World
}.

(** [Server]. *)
Record Server : Type := mkServer {
  callbacks : gmap string (list ServerEventCallback);
  connHandler : ConnectionHandler;
  nsHandler : NamespaceHandler
}.

Definition NewServer (handler : ConnectionHandler) (nsHandler : NamespaceHandler) : Server :=
  mkServer ∅ handler nsHandler.

(** [Server.On]. Reading a key that is absent from a Go map yields the nil
    slice. *)
Definition On (eventName : string) (callback : ServerEventCallback) (s : Server) : Server :=
  let cbs :=
    match callbacks s !! eventName with
    | Some _ => callbacks s
    | None => <[eventName := []]> (callbacks s)
    end in
  mkServer (<[eventName := (default [] (cbs !! eventName) ++ [callback])%list]> cbs)
    (connHandler s) (nsHandler s).

(** The listeners registered under a name, in the slice's order. *)
Definition listeners (eventName : string) (s : Server) : list ServerEventCallback :=
  default [] (callbacks s !! eventName).

(** [Server.Emit]: the listeners run one after the other on the caller. *)
Definition Emit (eventName : string) (conn : Connection) (s : Server) (w : World) : World :=
  match callbacks s !! eventName with
  | None => w
  | Some c => foldl (λ w callback, callback conn w) w c
  end.

(** [getClientOrigin]. *)
Definition getClientOrigin (r : Request) : string :=
  let origin := "*" in
  let clientPath := Referer r in
  let clientProto := Split clientPath "://" in
  if decide (1 < length clientProto) then
    let clientHost := Split (clientProto !!! 1) "/" in
    (clientProto !!! 0) +:+ "://" +:+ (clientHost !!! 0)
  else origin.

(** The lines [ServeHTTP] logs. *)
Inductive logLine : Type :=
| LogHandling (origin : string)
| LogDefaulting (nsName : string)
| LogCreating (nsName : string)
| LogUpgradeFailed (url : string) (err : error).

(** What [ServeHTTP] does to its surroundings, in order. *)
Inductive step : Type :=
| Logged (l : logLine)
| NamespaceCreated (nsName : string)
| UpgradeAttempted
| ConnectionCreated (c : Connection)
| Joined (c : Connection) (nsName : string)
| Emitted (eventName : string) (c : Connection)
| HandedOff (c : Connection).

(** The steps that follow a successful upgrade. *)
Definition afterUpgrade (e : step) : bool :=
  match e with
  | ConnectionCreated _ | Joined _ _ | Emitted _ _ | HandedOff _ => true
  | Logged _ | NamespaceCreated _ | UpgradeAttempted => false
  end.

(** The state one request runs in: the program state, the header of the
    response being written, and the steps taken so far. *)
Record St : Type := mkSt {
  world : World;
  header : gmap string string;
  steps : list step
}.

(** State passing, as a monad with stdpp's notation [x ← m; k]. *)
Definition M (A : Type) : Type := St → A * St.

#[local] Instance M_ret : MRet M := λ A a st, (a, st).
#[local] Instance M_bind : MBind M :=
  λ A B k m st, let '(a, st') := m st in k a st'.

Definition did (e : step) : M unit :=
  λ st, (tt, mkSt (world st) (header st) (steps st ++ [e])%list).
Definition logPrintf (l : logLine) : M unit := did (Logged l).
Definition Header_Set (k v : string) : M unit :=
  λ st, (tt, mkSt (world st) (<[k := v]> (header st)) (steps st)).
Definition getHeader : M (gmap string string) := λ st, (header st, st).
Definition readWorld {A} (f : World → A) : M A := λ st, (f (world st), st).
Definition onWorld {A} (f : World → A * World) : M A :=
  λ st, let '(a, w) := f (world st) in (a, mkSt w (header st) (steps st)).
Definition updWorld (f : World → World) : M unit := onWorld (λ w, (tt, f w)).

(** [util.NamespaceFromRequest] and the [Upgrade] function of the
    websocket library. *)
Variable NamespaceFromRequest : Request → result string.
Variable websocket_Upgrade : Request → gmap string string → nat → nat → result WsConn.

(** [Server.ServeHTTP]. *)
Definition ServeHTTP (s : Server) (r : Request) : M unit :=
  let origin := getClientOrigin r in
  logPrintf (LogHandling origin);;
  Header_Set "Access-Control-Allow-Origin" origin;;
  Header_Set "Access-Control-Allow-Credentials" "true";;
  nsName ←
    match NamespaceFromRequest r with
    | Ok nsName => mret nsName
    | Err _ => logPrintf (LogDefaulting DEFAULT_NAMESPACE);; mret DEFAULT_NAMESPACE
    end;
  found ← readWorld (NamespaceByName (nsHandler s) nsName);
  namespace ←
    match found with
    | Some namespace => mret namespace
    | None =>
        logPrintf (LogCreating nsName);;
        did (NamespaceCreated nsName);;
        onWorld (NewNamespace (nsHandler s) nsName)
    end;
  hdr ← getHeader;
  did UpgradeAttempted;;
  match websocket_Upgrade r hdr MAX_READ_BUF_SIZE MAX_WRITE_BUF_SIZE with
  | Err err => logPrintf (LogUpgradeFailed (URL_String r) err)
  | Ok conn =>
      socketConn ← onWorld (NewConnection (connHandler s) "" conn r);
      did (ConnectionCreated socketConn);;
      updWorld (Join socketConn (Name namespace));;
      did (Joined socketConn (Name namespace));;
      did (Emitted "connection" socketConn);;
      updWorld (Emit "connection" socketConn s);;
      updWorld (Handle (connHandler s) socketConn);;
      did (HandedOff socketConn)
  end.

End Server.
End Server.

(** * Properties *)

(** ** Strings *)
Module GoStringsFacts.
Import GoStrings.

Example Split_ex1 : Split "a/b//c" "/" = ["a"; "b"; ""; "c"].
Proof. reflexivity. Qed.

Example Split_ex2 : Split "" "/" = [""].
Proof. reflexivity. Qed.

Example Split_ex3 : Split "xPTyPT" "PT" = ["x"; "y"; ""].
Proof. reflexivity. Qed.

(** *** Facts about append, slices and prefixes *)

Lemma sapp_nil_l s : "" +:+ s = s.
Proof. reflexivity. Qed.

Lemma sapp_cons c a b : String c a +:+ b = String c (a +:+ b).
Proof. reflexivity. Qed.

Lemma slice_from_app a b : slice_from (String.length a) (a +:+ b) = b.
Proof. induction a as [|x a IH]; [done|]. rewrite sapp_cons. simpl. by rewrite IH. Qed.

Lemma slice_from_add n k s : slice_from (n + k) s = slice_from k (slice_from n s).
Proof.
  revert s; induction n as [|n IH]; intros s; [done|].
  destruct s as [|c s]; simpl; [by destruct k|]. apply IH.
Qed.

Lemma HasPrefix_app s p : HasPrefix s p = true ↔ ∃ r, s = p +:+ r.
Proof.
  revert s; induction p as [|a p IH]; intros s.
  - split; [intros _; by exists s|by destruct s].
  - destruct s as [|b s]; simpl.
    + split; [done|intros [r Hr]; by rewrite sapp_cons in Hr].
    + case_decide as Hab.
      * subst b. rewrite IH. split; intros [r Hr]; exists r.
        -- by rewrite sapp_cons, Hr.
        -- rewrite sapp_cons in Hr. by injection Hr.
      * split; [done|]. intros [r Hr]. rewrite sapp_cons in Hr. by injection Hr.
Qed.

Lemma HasPrefix_app_refl p r : HasPrefix (p +:+ r) p = true.
Proof. apply HasPrefix_app. by exists r. Qed.

(** *** What [Index] returns *)

Lemma HasPrefix_slice s p : HasPrefix s p = true → s = p +:+ slice_from (String.length p) s.
Proof. intros [r ->]%HasPrefix_app. by rewrite slice_from_app. Qed.

Lemma Index_Some s substr m :
  Index s substr = Some m →
  s = slice_to m s +:+ substr +:+ slice_from (m + String.length substr) s
  ∧ String.length (slice_to m s) = m.
Proof.
  revert m; induction s as [|c s IH]; intros m; cbn [Index].
  - destruct (HasPrefix "" substr) eqn:E; [|done]. intros [= <-].
    split; [|done]. by apply HasPrefix_slice in E.
  - destruct (HasPrefix (String c s) substr) eqn:E.
    + intros [= <-]. split; [|done]. by apply HasPrefix_slice in E.
    + destruct (Index s substr) as [k|] eqn:Ek; [|done]. intros [= <-].
      destruct (IH k eq_refl) as [Hs Hl]. simpl. rewrite Hl. split; [|done].
      by rewrite sapp_cons, <- Hs.
Qed.

Lemma Index_None s substr :
  Index s substr = None ↔ ¬ ∃ pre post, s = pre +:+ substr +:+ post.
Proof.
  induction s as [|c s IH]; cbn [Index].
  - destruct (HasPrefix "" substr) eqn:E.
    + split; [done|]. intros H; destruct H. apply HasPrefix_app in E as [r Hr].
      by exists "", r.
    + split; [|done]. intros _ (pre & post & H).
      destruct pre; [|by rewrite sapp_cons in H].
      rewrite sapp_nil_l in H. assert (HasPrefix "" substr = true); [|congruence].
      apply HasPrefix_app. by exists post.
  - destruct (HasPrefix (String c s) substr) eqn:E.
    + split; [done|]. intros H; destruct H. apply HasPrefix_app in E as [r Hr].
      by exists "", r.
    + destruct (Index s substr) as [k|] eqn:Ek; simpl.
      * split; [done|]. intros H; destruct H.
        apply Index_Some in Ek as [Hs _]. eexists (String c _), _.
        by rewrite sapp_cons, <- Hs.
      * split; [|done]. intros _ (pre & post & H). destruct pre as [|x pre].
        -- rewrite sapp_nil_l in H.
           assert (HasPrefix (String c s) substr = true); [|congruence].
           apply HasPrefix_app. by exists post.
        -- rewrite sapp_cons in H. injection H as -> Hs.
           apply (proj1 IH eq_refl). by exists pre, post.
Qed.

Lemma Contains_spec s substr :
  Contains s substr = true ↔ ∃ pre post, s = pre +:+ substr +:+ post.
Proof.
  unfold Contains. destruct (Index s substr) as [m|] eqn:E.
  - split; [intros _|done]. apply Index_Some in E as [Hs _]. eauto.
  - split; [done|]. intros H. by apply Index_None in E.
Qed.

Lemma Contains_false s substr :
  Contains s substr = false ↔ Index s substr = None.
Proof. unfold Contains. by destruct (Index s substr). Qed.

(** *** What [Split] returns *)

Lemma Split_step s sep :
  sep ≠ "" →
  Split s sep =
    match Index s sep with
    | None => [s]
    | Some m => slice_to m s :: Split (slice_from (m + String.length sep) s) sep
    end.
Proof.
  intros Hne. rewrite Split_equation_1.
  destruct (decide (sep = "")); [done|]. simpl. by destruct (Index s sep).
Qed.

Lemma Split_absent s sep : sep ≠ "" → Index s sep = None → Split s sep = [s].
Proof. intros Hne Hi. by rewrite Split_step, Hi. Qed.

Lemma Split_head s sep : sep ≠ "" → head (Split s sep) = Some (upTo sep s).
Proof.
  intros Hne. rewrite Split_step by done. unfold upTo. by destruct (Index s sep).
Qed.

Lemma Split_length_pos s sep : sep ≠ "" → 0 < length (Split s sep).
Proof.
  intros Hne. rewrite Split_step by done. destruct (Index s sep); simpl; lia.
Qed.

Lemma Split_length_gt1 s sep :
  sep ≠ "" → 1 < length (Split s sep) ↔ Contains s sep = true.
Proof.
  intros Hne. rewrite Split_step by done. unfold Contains.
  destruct (Index s sep) as [m|]; simpl.
  - pose proof (Split_length_pos (slice_from (m + String.length sep) s) sep Hne). split; [done|lia].
  - split; [lia|done].
Qed.

Lemma Split_length_2 s sep :
  sep ≠ "" →
  length (Split s sep) = 2 ↔
  ∃ m, Index s sep = Some m ∧ Contains (slice_from (m + String.length sep) s) sep = false.
Proof.
  intros Hne. rewrite Split_step by done. destruct (Index s sep) as [m|]; simpl.
  - pose proof (Split_length_gt1 (slice_from (m + String.length sep) s) sep Hne) as Hgt.
    pose proof (Split_length_pos (slice_from (m + String.length sep) s) sep Hne) as Hpos.
    split.
    + intros Hl. exists m. split; [done|].
      destruct (Contains _ sep); [|done]. destruct Hgt as [_ Hgt].
      specialize (Hgt eq_refl). lia.
    + intros (m' & [= <-] & Hc). destruct Hgt as [Hgt _].
      destruct (decide (1 < length (Split (slice_from (m + String.length sep) s) sep)))
        as [Hlt|]; [|lia].
      apply Hgt in Hlt. congruence.
  - split; [done|]. by intros (m & ? & _).
Qed.

(** Splitting on a one-byte separator goes byte by byte. *)
Lemma Index_char_eq d s : Index (String d s) (String d "") = Some 0.
Proof. cbn [Index]. simpl. rewrite decide_True by done. by destruct s. Qed.

Lemma Index_char_ne c d s :
  c ≠ d → Index (String c s) (String d "") = S <$> Index s (String d "").
Proof. intros Hne. cbn [Index]. simpl. by rewrite decide_False. Qed.

Lemma Split_char_eq d s : Split (String d s) (String d "") = "" :: Split s (String d "").
Proof. rewrite Split_step by done. by rewrite Index_char_eq. Qed.

Lemma Split_char_ne c d s :
  c ≠ d →
  Split (String c s) (String d "") =
    match Split s (String d "") with
    | h :: t => String c h :: t
    | [] => []
    end.
Proof.
  intros Hne. rewrite (Split_step (String c s)), (Split_step s) by done.
  rewrite Index_char_ne by done. by destruct (Index s (String d "")).
Qed.

(** The last piece of a split on one byte is what follows the last
    occurrence of that byte. *)
Lemma Split_char_last pre post d :
  Contains post (String d "") = false →
  last (Split (pre +:+ String d "" +:+ post) (String d "")) = Some post
  ∧ 1 < length (Split (pre +:+ String d "" +:+ post) (String d "")).
Proof.
  intros Hpost%Contains_false. induction pre as [|c pre [IHl IHn]].
  - rewrite sapp_nil_l, sapp_cons, sapp_nil_l, Split_char_eq, Split_absent by done.
    split; [done|simpl; lia].
  - rewrite sapp_cons. destruct (decide (c = d)) as [->|Hne].
    + rewrite Split_char_eq. split; [|simpl; lia].
      destruct (Split _ _) as [|h t]; [simpl in IHn; lia|]. by rewrite <- IHl.
    + rewrite Split_char_ne by done.
      destruct (Split _ _) as [|h [|h' t]]; simpl in IHn; [lia..|].
      split; [|simpl; lia]. by rewrite <- IHl.
Qed.

(** A string that contains a byte splits at the last occurrence of it. *)
Lemma Contains_char_last s d :
  Contains s (String d "") = true →
  ∃ pre post, s = pre +:+ String d "" +:+ post ∧ Contains post (String d "") = false.
Proof.
  induction s as [|c s IH]; [done|]. intros Hc.
  destruct (Contains s (String d "")) eqn:Hs.
  - destruct (IH eq_refl) as (pre & post & -> & Hpost).
    by exists (String c pre), post.
  - destruct (decide (c = d)) as [->|Hne].
    + by exists "", s.
    + unfold Contains in Hc, Hs. rewrite Index_char_ne in Hc by done.
      by destruct (Index s (String d "")).
Qed.

(** *** Positions of occurrences *)

Lemma elem_of_occurrences k s substr :
  k ∈ occurrences s substr ↔
  k ≤ String.length s ∧ HasPrefix (slice_from k s) substr = true.
Proof.
  revert k; induction s as [|c s IH]; intros k; cbn [occurrences].
  - rewrite (right_id_L [] (++)).
    assert (Hs : slice_from k "" = "") by (by destruct k). rewrite Hs.
    destruct (HasPrefix "" substr).
    + rewrite list_elem_of_singleton. cbn [String.length].
      split; [intros ->; by split|intros [? _]; lia].
    + rewrite elem_of_nil. split; [done|by intros [_ ?]].
  - rewrite elem_of_app, list_elem_of_fmap. destruct k as [|k].
    + change (slice_from 0 (String c s)) with (String c s).
      destruct (HasPrefix (String c s) substr).
      * split; [intros _; split; [lia|done]|intros _; left; by apply list_elem_of_singleton].
      * split; [intros [Hk|(j & ? & _)]; [by apply elem_of_nil in Hk|done]|by intros [_ ?]].
    + change (slice_from (S k) (String c s)) with (slice_from k s).
      cbn [String.length]. split.
      * intros [Hk|(j & [= <-] & Hj)].
        -- destruct (HasPrefix (String c s) substr);
             [by apply list_elem_of_singleton in Hk|by apply elem_of_nil in Hk].
        -- apply IH in Hj as [? ?]. split; [lia|done].
      * intros [Hl Hp]. right. exists k. split; [done|]. apply IH.
        split; [lia|done].
Qed.

Lemma occurrences_Index s substr m :
  Index s substr = Some m → m ∈ occurrences s substr.
Proof.
  intros Hm. apply elem_of_occurrences. pose proof (Index_bound _ _ _ Hm).
  split; [lia|]. apply Index_Some in Hm as [Hs Hl].
  rewrite Hs at 1. rewrite <- Hl at 1. rewrite slice_from_app.
  apply HasPrefix_app_refl.
Qed.

Lemma occurrences_nil s substr :
  occurrences s substr = [] → Index s substr = None.
Proof.
  intros Ho. destruct (Index s substr) as [m|] eqn:Hm; [|done].
  apply occurrences_Index in Hm. rewrite Ho in Hm. by apply elem_of_nil in Hm.
Qed.

(** An occurrence in the rest after the first one is an occurrence in the
    whole string, further right. *)
Lemma occurrences_rest s substr m :
  Index s substr = Some m →
  Contains (slice_from (m + String.length substr) s) substr = true →
  ∃ j, m + String.length substr + j ∈ occurrences s substr.
Proof.
  intros Hm Hc. pose proof (Index_bound _ _ _ Hm) as Hb.
  unfold Contains in Hc.
  destruct (Index (slice_from _ s) substr) as [j|] eqn:Hj; [|done].
  exists j. pose proof (Index_bound _ _ _ Hj) as Hbj.
  rewrite length_slice_from in Hbj.
  apply occurrences_Index, elem_of_occurrences in Hj as [_ Hj].
  apply elem_of_occurrences. split; [lia|]. by rewrite slice_from_add.
Qed.

(** *** Prefixes of a string, and the piece before a separator *)

Lemma slice_to_app a b : slice_to (String.length a) (a +:+ b) = a.
Proof.
  induction a as [|x a IH]; [by destruct b|]. rewrite sapp_cons. simpl. by rewrite IH.
Qed.

Lemma HasPrefix_slice_to n s p : HasPrefix (slice_to n s) p = true → HasPrefix s p = true.
Proof.
  revert n s; induction p as [|a p IH]; intros n s; [by destruct s|].
  destruct n as [|n], s as [|b s]; simpl; try done.
  case_decide; [|done]. apply IH.
Qed.

Lemma Index_nil_None sep : sep ≠ "" → Index "" sep = None.
Proof. by destruct sep. Qed.

(** No occurrence of the separator lies before its leftmost occurrence. *)
Lemma Index_slice_to_None s sep m :
  sep ≠ "" → Index s sep = Some m → Index (slice_to m s) sep = None.
Proof.
  intros Hne. revert m; induction s as [|c s IH]; intros m.
  - intros _. destruct m; by apply Index_nil_None.
  - cbn [Index]. destruct (HasPrefix (String c s) sep) eqn:E.
    + intros [= <-]. by apply Index_nil_None.
    + destruct (Index s sep) as [k|] eqn:Ek; [|done]. intros [= <-].
      change (slice_to (S k) (String c s)) with (String c (slice_to k s)).
      cbn [Index].
      destruct (HasPrefix (String c (slice_to k s)) sep) eqn:E'.
      * apply (HasPrefix_slice_to (S k) (String c s)) in E'. congruence.
      * by rewrite (IH k eq_refl).
Qed.

Lemma upTo_no_sep sep s : sep ≠ "" → Contains (upTo sep s) sep = false.
Proof.
  intros Hne. apply Contains_false. unfold upTo.
  destruct (Index s sep) as [m|] eqn:Hm; [|done]. by apply Index_slice_to_None.
Qed.

Lemma upTo_absent sep s : Contains s sep = false → upTo sep s = s.
Proof. intros Hc%Contains_false. unfold upTo. by rewrite Hc. Qed.

Lemma upTo_idemp sep s : sep ≠ "" → upTo sep (upTo sep s) = upTo sep s.
Proof. intros Hne. by apply upTo_absent, upTo_no_sep. Qed.

(** *** The bytes of a string *)

Lemma Contains_char s d :
  Contains s (String d "") = true ↔ d ∈ String.list_ascii_of_string s.
Proof.
  unfold Contains. induction s as [|c s IH]; cbn [String.list_ascii_of_string].
  - rewrite elem_of_nil. by split.
  - rewrite elem_of_cons. destruct (decide (c = d)) as [->|Hne].
    + rewrite Index_char_eq. by split; [left|].
    + rewrite Index_char_ne by done. destruct (Index s (String d "")); simpl.
      * split; [intros _; right; by apply IH|done].
      * split; [done|]. intros [->|Hin]; [done|]. by apply IH in Hin.
Qed.

Lemma Contains_char_false s d :
  Contains s (String d "") = false ↔ d ∉ String.list_ascii_of_string s.
Proof.
  rewrite <- Contains_char. by destruct (Contains s (String d "")); split.
Qed.

Lemma elem_of_slice_to x n s :
  x ∈ String.list_ascii_of_string (slice_to n s) → x ∈ String.list_ascii_of_string s.
Proof.
  revert s; induction n as [|n IH]; intros [|c s]; simpl; try by rewrite elem_of_nil.
  rewrite !elem_of_cons. intros [->|Hin]; [by left|right; by apply IH].
Qed.

Lemma elem_of_slice_from x n s :
  x ∈ String.list_ascii_of_string (slice_from n s) → x ∈ String.list_ascii_of_string s.
Proof.
  revert s; induction n as [|n IH]; intros [|c s]; simpl; try done.
  intros Hin. rewrite elem_of_cons. right. by apply IH.
Qed.

Lemma elem_of_upTo x sep s :
  x ∈ String.list_ascii_of_string (upTo sep s) → x ∈ String.list_ascii_of_string s.
Proof. unfold upTo. destruct (Index s sep); [apply elem_of_slice_to|done]. Qed.

Lemma list_ascii_of_sapp a b :
  String.list_ascii_of_string (a +:+ b) = String.list_ascii_of_string a ++ String.list_ascii_of_string b.
Proof. induction a as [|x a IH]; [done|]. rewrite sapp_cons. simpl. by rewrite IH. Qed.

Lemma Index_HasPrefix s p : HasPrefix s p = true → Index s p = Some 0.
Proof. intros Hp. destruct s; cbn [Index]; by rewrite Hp. Qed.

Lemma Index_cons_no_prefix x s p :
  HasPrefix (String x s) p = false → Index (String x s) p = S <$> Index s p.
Proof. intros Hp. cbn [Index]. by rewrite Hp. Qed.

(** A separator whose first byte does not occur in [a] occurs in
    [a ++ sep ++ b] first right after [a]. *)
Lemma Index_after_free a c sep b :
  c ∉ String.list_ascii_of_string a →
  Index (a +:+ String c sep +:+ b) (String c sep) = Some (String.length a).
Proof.
  induction a as [|x a IH]; intros Hfree.
  - rewrite sapp_nil_l. apply Index_HasPrefix, HasPrefix_app_refl.
  - simpl in Hfree. apply not_elem_of_cons in Hfree as [Hx Hfree].
    rewrite sapp_cons, Index_cons_no_prefix.
    + by rewrite (IH Hfree).
    + simpl. by rewrite decide_False.
Qed.

Lemma upTo_after_free a c sep b :
  c ∉ String.list_ascii_of_string a → upTo (String c sep) (a +:+ String c sep +:+ b) = a.
Proof.
  intros Hfree. unfold upTo. rewrite Index_after_free by done. apply slice_to_app.
Qed.

End GoStringsFacts.

(** ** Identity extraction *)
Module IdentityFacts.
Import GoStrings GoStringsFacts Stream.

Lemma lookup_total_last (l : list string) x :
  last l = Some x → l !!! (length l - 1) = x.
Proof.
  intros Hl. apply list_lookup_total_correct.
  rewrite last_lookup in Hl. by replace (length l - 1) with (pred (length l)) by lia.
Qed.

Lemma lookup_total_head (l : list string) x : head l = Some x → l !!! 0 = x.
Proof. destruct l; [done|]. by intros [= ->]. Qed.

(** The id [ytVideoIdFromUrl] reads off a last path segment. *)
Definition ytIdOfSegment (lastSeg : string) : string :=
  match Index lastSeg "watch?v=" with
  | None => lastSeg
  | Some m => upTo "&" (upTo "watch?v=" (slice_from (m + 8) lastSeg))
  end.

Lemma ytVideoIdFromUrl_no_slash videoUrl :
  Contains videoUrl "/" = false → ytVideoIdFromUrl videoUrl = Err "invalid url".
Proof.
  intros Hc%Contains_false. unfold ytVideoIdFromUrl.
  by rewrite Split_absent by done.
Qed.

Lemma ytVideoIdFromUrl_last_segment pre lastSeg :
  Contains lastSeg "/" = false →
  ytVideoIdFromUrl (pre +:+ "/" +:+ lastSeg) = Ok (ytIdOfSegment lastSeg).
Proof.
  intros Hc. destruct (Split_char_last pre lastSeg "/"%char Hc) as [Hlast Hlen].
  unfold ytVideoIdFromUrl. cbv zeta.
  rewrite decide_False by lia. rewrite (lookup_total_last _ _ Hlast).
  unfold matchWatchMarker, Contains, ytIdOfSegment.
  destruct (Index lastSeg "watch?v=") as [m|] eqn:Hm; [|done].
  rewrite (Split_step lastSeg) by done. rewrite Hm.
  change (String.length "watch?v=") with 8.
  set (rest := slice_from (m + 8) lastSeg).
  assert ((slice_to m lastSeg :: Split rest "watch?v=") !!! 1 = upTo "watch?v=" rest) as ->.
  { pose proof (Split_head rest "watch?v=") as Hh.
    destruct (Split rest "watch?v=") as [|h t]; [by discriminate Hh|].
    simpl in Hh. injection Hh as ->; [done|done]. }
  set (id1 := upTo "watch?v=" rest).
  case_decide as Hamp.
  - f_equal. apply lookup_total_head, Split_head. done.
  - f_equal. unfold upTo.
    destruct (Index id1 "&") eqn:Hi; [|done].
    exfalso. apply Hamp. apply Split_length_gt1; [done|]. unfold Contains. by rewrite Hi.
Qed.

(** The index expressions of [ytVideoIdFromUrl] are in range where they are
    evaluated. *)
Lemma ytVideoIdFromUrl_in_range lastSeg :
  matchWatchMarker lastSeg = true →
  1 < length (Split lastSeg "watch?v=")
  ∧ 0 < length (Split (Split lastSeg "watch?v=" !!! 1) "&").
Proof.
  intros Hm. split; [by apply Split_length_gt1|by apply Split_length_pos].
Qed.

Lemma ytVideoIdFromUrl_Err_iff videoUrl :
  ytVideoIdFromUrl videoUrl = Err "invalid url" ↔ Contains videoUrl "/" = false.
Proof.
  split; [|apply ytVideoIdFromUrl_no_slash].
  destruct (Contains videoUrl "/") eqn:Hc; [|done].
  apply (Contains_char_last videoUrl "/"%char) in Hc as (pre & post & -> & Hpost).
  by rewrite ytVideoIdFromUrl_last_segment.
Qed.

(** C2, as amended. [ytVideoIdFromUrl] fails, with the error "invalid url",
    exactly when the URL contains no ['/']. Otherwise it looks at the part
    after the last ['/']: when that segment does not contain [watch?v=], the
    segment is the id; when it does, the id is what stands between the
    first [watch?v=] and the next one (or the end of the segment when there
    is no other), cut before its first ['&'] when it has one. Every URL that
    ends in [/watch?v=abc123&t=5] yields [abc123]. *)
Theorem ytVideoIdFromUrl_spec (videoUrl : string) :
  (ytVideoIdFromUrl videoUrl = Err "invalid url" ↔ Contains videoUrl "/" = false)
  ∧ is_Ok (ytVideoIdFromUrl videoUrl) = Contains videoUrl "/"
  ∧ (∀ pre lastSeg,
       videoUrl = pre +:+ "/" +:+ lastSeg →
       Contains lastSeg "/" = false →
       (Contains lastSeg "watch?v=" = false → ytVideoIdFromUrl videoUrl = Ok lastSeg)
       ∧ (∀ a b,
            lastSeg = a +:+ "watch?v=" +:+ b →
            Index lastSeg "watch?v=" = Some (String.length a) →
            ytVideoIdFromUrl videoUrl = Ok (upTo "&" (upTo "watch?v=" b))))
  ∧ (∀ pre, ytVideoIdFromUrl (pre +:+ "/watch?v=abc123&t=5") = Ok "abc123").
Proof.
  split; [apply ytVideoIdFromUrl_Err_iff|]. split.
  { destruct (Contains videoUrl "/") eqn:Hc.
    - apply (Contains_char_last videoUrl "/"%char) in Hc as (pre & post & -> & Hpost).
      by rewrite ytVideoIdFromUrl_last_segment.
    - by rewrite ytVideoIdFromUrl_no_slash. }
  split.
  - intros pre lastSeg -> Hno. rewrite ytVideoIdFromUrl_last_segment by done.
    unfold ytIdOfSegment. split.
    + intros Hc%Contains_false. by rewrite Hc.
    + intros a b -> Hi. rewrite Hi. do 3 f_equal.
      rewrite slice_from_add, slice_from_app.
      apply (slice_from_app "watch?v=" b).
  - intros pre. exact (ytVideoIdFromUrl_last_segment pre "watch?v=abc123&t=5" eq_refl).
Qed.

Lemma ytVideoIdFromUrl_spec_witness :
  ytVideoIdFromUrl "https://www.youtube.com/watch?v=abc123&t=5" = Ok "abc123".
Proof.
  destruct (ytVideoIdFromUrl_spec "https://www.youtube.com/watch?v=abc123&t=5")
    as (_ & _ & H & _).
  destruct (H "https://www.youtube.com" "watch?v=abc123&t=5" eq_refl eq_refl) as [_ H'].
  exact (H' "" "abc123&t=5" eq_refl eq_refl).
Defined.

(** C2 as stated fails: the id is not always the whole portion after the
    marker up to the first ['&']. In this URL the last segment is the marker
    followed by [abcwatch?v=def], which has no ['&'], and the id returned is
    [abc]: a second [watch?v=] ends the id as well. *)
Lemma ytVideoIdFromUrl_stops_at_second_marker :
  "https://www.youtube.com/watch?v=abcwatch?v=def"
    = "https://www.youtube.com" +:+ "/" +:+ ("" +:+ "watch?v=" +:+ "abcwatch?v=def")
  ∧ Contains ("" +:+ "watch?v=" +:+ "abcwatch?v=def") "/" = false
  ∧ Index ("" +:+ "watch?v=" +:+ "abcwatch?v=def") "watch?v=" = Some 0
  ∧ upTo "&" "abcwatch?v=def" = "abcwatch?v=def"
  ∧ ytVideoIdFromUrl "https://www.youtube.com/watch?v=abcwatch?v=def" = Ok "abc"
  ∧ ytVideoIdFromUrl "https://www.youtube.com/watch?v=abcwatch?v=def"
      ≠ Ok (upTo "&" "abcwatch?v=def").
Proof. repeat split; try reflexivity. vm_compute. discriminate. Qed.

(** C4, as amended. [twitchVideoIdFromUrl] succeeds exactly when the URL is
    [a ++ "/videos/" ++ id] with that occurrence of [/videos/] the leftmost
    one and none inside [id], which is when [Split] yields two parts, and it
    returns [id]; it fails, with the error "invalid url", exactly when
    [/videos/] is absent or occurs again in what follows its leftmost
    occurrence. So it fails when [/videos/] occurs nowhere and succeeds when
    it occurs at exactly one position; an occurrence that overlaps the
    leftmost one does not make it fail. *)
Theorem twitchVideoIdFromUrl_spec (videoUrl : string) :
  (∀ id, twitchVideoIdFromUrl videoUrl = Ok id ↔
         ∃ a, videoUrl = a +:+ "/videos/" +:+ id
              ∧ Index videoUrl "/videos/" = Some (String.length a)
              ∧ Contains id "/videos/" = false)
  ∧ (∀ e, twitchVideoIdFromUrl videoUrl = Err e ↔
          e = "invalid url"
          ∧ (Contains videoUrl "/videos/" = false
             ∨ ∃ m, Index videoUrl "/videos/" = Some m
                    ∧ Contains (slice_from (m + 8) videoUrl) "/videos/" = true))
  ∧ (occurrences videoUrl "/videos/" = [] → twitchVideoIdFromUrl videoUrl = Err "invalid url")
  ∧ (∀ i, occurrences videoUrl "/videos/" = [i] →
          twitchVideoIdFromUrl videoUrl = Ok (slice_from (i + 8) videoUrl))
  ∧ twitchVideoIdFromUrl "https://www.twitch.tv/videos/55555" = Ok "55555".
Proof.
  assert (Hstep : twitchVideoIdFromUrl videoUrl =
    match Index videoUrl "/videos/" with
    | None => Err "invalid url"
    | Some m => if Contains (slice_from (m + 8) videoUrl) "/videos/"
                then Err "invalid url" else Ok (slice_from (m + 8) videoUrl)
    end).
  { unfold twitchVideoIdFromUrl. cbv zeta.
    pose proof (Split_length_2 videoUrl "/videos/") as H2.
    rewrite (Split_step videoUrl) in * by done.
    change (String.length "/videos/") with 8 in *.
    destruct (Index videoUrl "/videos/") as [m|] eqn:Hm; [|done].
    destruct (Contains (slice_from (m + 8) videoUrl) "/videos/") eqn:Hc.
    - rewrite decide_True; [done|]. intros Hl. apply H2 in Hl as (m' & [= <-] & Hc'); [|done].
      congruence.
    - rewrite decide_False.
      + apply Contains_false in Hc.
        by rewrite (Split_absent (slice_from (m + 8) videoUrl) "/videos/") by done.
      + intros Hl. apply Hl, H2; [done|]. by exists m. }
  split; [|split; [|split; [|split]]].
  - intros id. rewrite Hstep. split.
    + destruct (Index videoUrl "/videos/") as [m|] eqn:Hm; [|done].
      destruct (Contains _ "/videos/") eqn:Hc; [done|]. intros [= <-].
      apply Index_Some in Hm as [Hs Hl]. exists (slice_to m videoUrl).
      by rewrite Hl.
    + intros (a & -> & -> & Hc).
      assert (slice_from (String.length a + 8) (a +:+ "/videos/" +:+ id) = id) as ->.
      { rewrite slice_from_add, slice_from_app. apply (slice_from_app "/videos/" id). }
      by rewrite Hc.
  - intros e. rewrite Hstep. unfold Contains at 2.
    destruct (Index videoUrl "/videos/") as [m|] eqn:Hm.
    + destruct (Contains _ "/videos/") eqn:Hc.
      * split; [intros [= <-]; split; [done|right; by exists m]|by intros [-> _]].
      * split; [done|]. intros [_ [?|(m' & [= <-] & ?)]]; congruence.
    + split; [intros [= <-]; split; [done|by left]|by intros [-> _]].
  - intros Ho%occurrences_nil. by rewrite Hstep, Ho.
  - intros i Ho. rewrite Hstep.
    destruct (Index videoUrl "/videos/") as [m|] eqn:Hm.
    + pose proof (occurrences_Index _ _ _ Hm) as Hin. rewrite Ho in Hin.
      apply list_elem_of_singleton in Hin as ->.
      destruct (Contains _ "/videos/") eqn:Hc; [|done].
      destruct (occurrences_rest _ _ _ Hm Hc) as [j Hj]. rewrite Ho in Hj.
      apply list_elem_of_singleton in Hj. simpl in Hj. lia.
    + assert (i ∈ occurrences videoUrl "/videos/") as Hin
        by (rewrite Ho; by apply list_elem_of_singleton).
      apply elem_of_occurrences in Hin as [_ Hp].
      apply HasPrefix_app in Hp as [r Hr].
      apply Index_None in Hm. destruct Hm. exists (slice_to i videoUrl), r.
      rewrite <- Hr. clear. revert videoUrl. induction i as [|i IH]; intros [|c s]; try done.
      simpl. by rewrite sapp_cons, <- IH.
  - reflexivity.
Qed.

Lemma twitchVideoIdFromUrl_spec_witness :
  twitchVideoIdFromUrl "https://www.twitch.tv/videos/55555" = Ok "55555".
Proof.
  destruct (twitchVideoIdFromUrl_spec "https://www.twitch.tv/videos/55555")
    as (_ & _ & _ & Hone & _).
  exact (Hone 21 eq_refl).
Defined.

(** C4 as stated fails: [/videos/] occurs twice in this URL, at offsets 21
    and 28, and the extraction succeeds. *)
Lemma twitchVideoIdFromUrl_overlapping_occurrence :
  occurrences "https://www.twitch.tv/videos/videos/55555" "/videos/" = [21; 28]
  ∧ twitchVideoIdFromUrl "https://www.twitch.tv/videos/videos/55555" = Ok "videos/55555".
Proof. split; reflexivity. Qed.

End IdentityFacts.

(** ** The ref-graph *)
Module RefGraphFacts.
Import Stream.

(** A reference type for the examples: an identity, and a tag that tells
    two references of one identity apart. *)
Definition taggedRef : Type := string * nat.

#[export] Instance taggedRef_StreamRef : StreamRef taggedRef := fst.

Section RefGraph.
Context {R : Type} `{StreamRef R}.
Implicit Types (s : @StreamMetaSchema R) (ref value : R) (key : string).

Lemma SetLabelledRef_stores key value s :
  LabelledRefs (SetLabelledRef key value s).2 = <[key := value]> (LabelledRefs s)
  ∧ ParentRefs (SetLabelledRef key value s).2 = ParentRefs s
  ∧ LastUpdated (SetLabelledRef key value s).2 = LastUpdated s
  ∧ CreationSource (SetLabelledRef key value s).2 = CreationSource s.
Proof. unfold SetLabelledRef. by destruct (LabelledRefs s !! key). Qed.

Lemma GetLabelledRef_lookup key s : GetLabelledRef key s = LabelledRefs s !! key.
Proof. unfold GetLabelledRef. by destruct (LabelledRefs s !! key). Qed.

(** C3. [SetLabelledRef] on a label that is not in the map stores the pair
    and returns true; on a label that is in the map it overwrites the stored
    reference and returns false. Either way a [GetLabelledRef] that follows
    returns the reference just stored, with true; after a second
    [SetLabelledRef] on the label, which returns false, it returns the
    second reference and the label's old entry is gone (the map is the
    original one with the single entry for the label set to the newest
    reference); other labels are not touched. *)
Theorem SetLabelledRef_GetLabelledRef key value s :
  (LabelledRefs s !! key = None →
     (SetLabelledRef key value s).1 = true
     ∧ LabelledRefs (SetLabelledRef key value s).2 = <[key := value]> (LabelledRefs s))
  ∧ (is_Some (LabelledRefs s !! key) →
       (SetLabelledRef key value s).1 = false
       ∧ LabelledRefs (SetLabelledRef key value s).2 = <[key := value]> (LabelledRefs s))
  ∧ GetLabelledRef key (SetLabelledRef key value s).2 = Some value
  ∧ (∀ newest,
       (SetLabelledRef key newest (SetLabelledRef key value s).2).1 = false
       ∧ GetLabelledRef key (SetLabelledRef key newest (SetLabelledRef key value s).2).2
           = Some newest
       ∧ LabelledRefs (SetLabelledRef key newest (SetLabelledRef key value s).2).2
           = <[key := newest]> (LabelledRefs s))
  ∧ (∀ other, other ≠ key →
       GetLabelledRef other (SetLabelledRef key value s).2 = GetLabelledRef other s).
Proof.
  destruct (SetLabelledRef_stores key value s) as (Hl & _).
  split_and!.
  - unfold SetLabelledRef. by intros ->.
  - unfold SetLabelledRef. by intros [x ->].
  - by rewrite GetLabelledRef_lookup, Hl, lookup_insert_eq.
  - intros newest.
    destruct (SetLabelledRef_stores key newest (SetLabelledRef key value s).2) as (Hl' & _).
    split_and!.
    + unfold SetLabelledRef at 1. by rewrite Hl, lookup_insert_eq.
    + by rewrite GetLabelledRef_lookup, Hl', lookup_insert_eq.
    + by rewrite Hl', Hl, insert_insert_eq.
  - intros other Hne. by rewrite !GetLabelledRef_lookup, Hl, lookup_insert_ne.
Qed.

(** C5. The first [AddParentRef] of an identity returns true and inserts
    the reference under it; a second one with a reference of the same
    identity returns false and leaves the receiver as it is: the same map,
    so the same size and the same members. *)
Theorem AddParentRef_idempotent ref ref' s :
  ParentRefs s !! UUID ref = None →
  UUID ref' = UUID ref →
  (AddParentRef ref s).1 = true
  ∧ ParentRefs (AddParentRef ref s).2 = <[UUID ref := ref]> (ParentRefs s)
  ∧ size (ParentRefs (AddParentRef ref s).2) = S (size (ParentRefs s))
  ∧ AddParentRef ref' (AddParentRef ref s).2 = (false, (AddParentRef ref s).2)
  ∧ size (ParentRefs (AddParentRef ref' (AddParentRef ref s).2).2)
      = size (ParentRefs (AddParentRef ref s).2)
  ∧ GetParentRefs (AddParentRef ref' (AddParentRef ref s).2).2
      = GetParentRefs (AddParentRef ref s).2.
Proof.
  intros Hnew Hid.
  assert (Hfirst : AddParentRef ref s =
    (true, mkStreamMeta (CreationSource s) (LastUpdated s)
             (<[UUID ref := ref]> (ParentRefs s)) (LabelledRefs s))).
  { unfold AddParentRef. by rewrite Hnew. }
  assert (Hsecond : AddParentRef ref' (AddParentRef ref s).2 = (false, (AddParentRef ref s).2)).
  { rewrite Hfirst. unfold AddParentRef. simpl. by rewrite Hid, lookup_insert_eq. }
  rewrite Hsecond. rewrite Hfirst. simpl. repeat split.
  by apply map_size_insert_None.
Qed.

(** Whatever the map holds, adding the same identity twice leaves the second
    call without effect. *)
Lemma AddParentRef_twice ref ref' s :
  UUID ref' = UUID ref →
  AddParentRef ref' (AddParentRef ref s).2 = (false, (AddParentRef ref s).2).
Proof.
  intros Hid. unfold AddParentRef at 2 3.
  destruct (ParentRefs s !! UUID ref) as [x|] eqn:Hx; simpl.
  - unfold AddParentRef. by rewrite Hid, Hx.
  - unfold AddParentRef. simpl. by rewrite Hid, lookup_insert_eq.
Qed.

End RefGraph.

Lemma SetLabelledRef_GetLabelledRef_witness :
  (SetLabelledRef "next" ("a", 1) (NewStreamMeta 0%Z)).1 = true
  ∧ GetLabelledRef "next"
      (SetLabelledRef "next" ("b", 2)
         (SetLabelledRef "next" ("a", 1) (NewStreamMeta 0%Z)).2).2 = Some ("b", 2).
Proof.
  destruct (SetLabelledRef_GetLabelledRef (R := taggedRef) "next" ("a", 1) (NewStreamMeta 0%Z))
    as (Hnew & _ & _ & Hagain & _).
  split.
  - apply Hnew. reflexivity.
  - apply (Hagain ("b", 2)).
Defined.

Lemma AddParentRef_idempotent_witness :
  (AddParentRef ("playlist", 1) (NewStreamMeta 0%Z)).1 = true
  ∧ AddParentRef ("playlist", 2) (AddParentRef ("playlist", 1) (NewStreamMeta 0%Z)).2
      = (false, (AddParentRef ("playlist", 1) (NewStreamMeta 0%Z)).2).
Proof.
  destruct (AddParentRef_idempotent (R := taggedRef) ("playlist", 1) ("playlist", 2)
              (NewStreamMeta 0%Z)) as (H1 & _ & _ & H2 & _); [reflexivity..|].
  split; [exact H1|exact H2].
Defined.

End RefGraphFacts.

(** ** Streams: identity, [SetInfo] and [FetchMetadata] *)
Module StreamFacts.
Import GoStrings GoStringsFacts Stream RefGraphFacts.

Section Streams.
Context {R : Type} `{StreamRef R}.
Implicit Types (s : @Stream R) (schema : @StreamSchema R).

(** Every [Stream] is a [StreamRef]. *)
#[export] Instance Stream_StreamRef : StreamRef (@Stream R) := Stream_UUID.

(** C8. The identity of a stream of any variant, and so of every stream a
    factory returns, is its canonical URL: [UUID()] and [GetStreamURL()]
    return the same string, and two streams with the same canonical URL
    have the same identity, of whichever variants they are. *)
Theorem UUID_is_canonical_URL s :
  Stream_UUID s = GetStreamURL s
  ∧ UUID s = GetStreamURL s
  ∧ (∀ s', GetStreamURL s = GetStreamURL s' → Stream_UUID s = Stream_UUID s')
  ∧ (∀ cfg now u,
       Stream_UUID (R := R) (NewLocalVideoStream now u) = u
       ∧ Stream_UUID (R := R) (NewRemoteVideoStream now u) = u
       ∧ Stream_UUID (R := R) (NewTwitchStream cfg now u) = u
       ∧ Stream_UUID (R := R) (NewTwitchClipStream cfg now u) = u
       ∧ Stream_UUID (R := R) (NewSoundCloudStream cfg now u) = u
       ∧ Stream_UUID (R := R) (NewYouTubeStream cfg now u) = upTo "&" u).
Proof.
  split_and!; [done..|]. intros cfg now u. split_and!; [done..|].
  unfold NewYouTubeStream, Stream_UUID. simpl. case_decide as Hamp.
  - apply IdentityFacts.lookup_total_head, Split_head. done.
  - unfold upTo. destruct (Index u "&") eqn:Hi; [|done].
    exfalso. apply Hamp, Split_length_gt1; [done|]. unfold Contains. by rewrite Hi.
Qed.

End Streams.

Lemma UUID_is_canonical_URL_witness :
  Stream_UUID (R := taggedRef) (NewTwitchStream (mkApiConfig "k1" "k2" "k3") 0%Z "https://h/a")
    = Stream_UUID (R := taggedRef) (NewRemoteVideoStream 7%Z "https://h/a").
Proof.
  destruct (UUID_is_canonical_URL (R := taggedRef)
              (NewTwitchStream (mkApiConfig "k1" "k2" "k3") 0%Z "https://h/a"))
    as (_ & _ & Hsame & _).
  exact (Hsame (NewRemoteVideoStream 7%Z "https://h/a") eq_refl).
Defined.

Section StreamOperations.
Context {R : Type} `{StreamRef R}.
Implicit Types (schema : @StreamSchema R).

(** C9. [SetInfo] sets the last-updated time of the Meta to the reading of
    the clock and only then hands the input to [json.Unmarshal], which sees
    the refreshed stream. When the input is malformed, so that
    [json.Unmarshal] rejects it in its well-formedness scan, [SetInfo]
    returns that error and the stream is the one it was given except for
    the refreshed last-updated time. *)
Theorem SetInfo_refreshes_LastUpdated
    (json_checkValid : bytes → option error)
    (json_decode : bytes → @StreamSchema R → @StreamSchema R * option error)
    (now : Time) (data : bytes) schema :
  SetInfo json_checkValid json_decode now data schema
    = json_Unmarshal json_checkValid json_decode data (withLastUpdated now schema)
  ∧ GetLastUpdated (Meta (withLastUpdated now schema)) = now
  ∧ (∀ err, json_checkValid data = Some err →
       SetInfo json_checkValid json_decode now data schema
         = (withLastUpdated now schema, Some err)
       ∧ GetLastUpdated (Meta (SetInfo json_checkValid json_decode now data schema).1) = now).
Proof.
  split_and!; [done..|]. intros err Herr.
  unfold SetInfo, json_Unmarshal. by rewrite Herr.
Qed.

(** C10. [FetchMetadata] of a bare [StreamSchema] is one call of the
    callback, made by the caller itself, with the stream, nil data and an
    error whose message contains the quoted kind; it starts no goroutine and
    sends no request. *)
Theorem StreamSchema_FetchMetadata_spec (strconv_Quote : string → string) schema :
  ∃ msg,
    StreamSchema_FetchMetadata strconv_Quote schema = [Callback schema None (Some msg)]
    ∧ Contains msg (strconv_Quote (Kind schema)) = true
    ∧ flat_map callsOf (StreamSchema_FetchMetadata strconv_Quote schema) = [(None, Some msg)]
    ∧ flat_map requestsOf (StreamSchema_FetchMetadata strconv_Quote schema) = []
    ∧ sum_list (spawnsOf <$> StreamSchema_FetchMetadata strconv_Quote schema) = 0.
Proof.
  eexists. split_and!; [reflexivity| |reflexivity..].
  apply Contains_spec. by eexists _, _.
Qed.

(** The duration the SoundCloud goroutine puts in the payload. *)
Lemma soundCloudVideoItem_duration (item : SoundCloudResponseItem) :
  soundCloudVideoItem item !! "duration"
    = Some (JNumber (float64_of_int (sc_Duration item ÷ 1000))).
Proof.
  unfold soundCloudVideoItem. rewrite lookup_insert_ne by done. apply lookup_insert_eq.
Qed.

Lemma round53_small (n : Z) : (Z.abs n ≤ 2 ^ 53)%Z → round53 n = n.
Proof. intros Hn. unfold round53. by rewrite (proj2 (Z.leb_le _ _) Hn). Qed.

(** On a whole number of seconds the division is exact. *)
Lemma soundCloud_whole_seconds (k : Z) :
  (Z.abs k ≤ 2 ^ 53)%Z → float64_of_int ((1000 * k) ÷ 1000) = inject_Z k.
Proof.
  intros Hk. unfold float64_of_int.
  rewrite Z.mul_comm, Z.quot_mul by done. by rewrite round53_small.
Qed.

(** When the provider answers and the answer decodes, the goroutine sends
    one request and calls the callback once, with the encoded payload map
    and no error. *)
Lemma soundCloudFetch_delivers
    (apiconfig : ApiConfig) (http_Get : string → result (result bytes))
    (url_QueryEscape : string → string)
    (json_Unmarshal_SoundCloud : bytes → result SoundCloudResponseItem)
    (json_Marshal : gmap string jsonValue → result bytes)
    schema apiKey data item jsonData :
  let resolveUrl :=
    "https://api.soundcloud.com/resolve.json?url=" +:+ url_QueryEscape (Url schema)
    +:+ "&client_id=" +:+ SC_API_KEY apiconfig in
  http_Get resolveUrl = Ok (Ok data) →
  json_Unmarshal_SoundCloud data = Ok item →
  json_Marshal (soundCloudVideoItem item) = Ok jsonData →
  SoundCloudStream_FetchMetadata apiconfig http_Get url_QueryEscape
      json_Unmarshal_SoundCloud json_Marshal schema apiKey
    = [Go [HttpGet resolveUrl; Callback schema (Some jsonData) None]].
Proof.
  intros resolveUrl Hget Hdec Henc.
  unfold SoundCloudStream_FetchMetadata, soundCloudFetch.
  fold resolveUrl. by rewrite Hget, Hdec, Henc.
Qed.

End StreamOperations.

(** C1 at a duration that is not a whole number of seconds. For a response
    with duration 1500 the payload carries the duration 1, which is not
    1500/1000: the division is done on integers, before the conversion to
    [float64]. A response with duration 180000 gives 180. *)
Theorem soundCloud_duration_truncates :
  soundCloudVideoItem (mkSoundCloudResponseItem "title" 1500 "thumb") !! "duration"
    = Some (JNumber 1%Q)
  ∧ ¬ (1 == 1500 # 1000)%Q
  ∧ soundCloudVideoItem (mkSoundCloudResponseItem "title" 180000 "thumb") !! "duration"
    = Some (JNumber 180%Q).
Proof. split_and!; [reflexivity|discriminate|reflexivity]. Qed.

Lemma SetInfo_refreshes_LastUpdated_witness :
  let checkValid := λ data : bytes, if decide (data = "") then Some "unexpected end of JSON input" else None in
  let decode := λ (data : bytes) (schema : @StreamSchema taggedRef), (schema, None) in
  let schema := mkStreamSchema "movie" "" "/tmp/a.mp4" 0%Q "" (NewStreamMeta 5%Z) in
  SetInfo checkValid decode 9%Z "" schema
    = (withLastUpdated 9%Z schema, Some "unexpected end of JSON input").
Proof.
  intros checkValid decode schema.
  destruct (SetInfo_refreshes_LastUpdated (R := taggedRef) checkValid decode 9%Z "" schema)
    as (_ & _ & Hbad).
  exact (proj1 (Hbad "unexpected end of JSON input" eq_refl)).
Defined.

End StreamFacts.

(** ** The event bus and admission *)
Module ServerFacts.
Import GoStrings GoStringsFacts Server.

Section EventBus.
Context {Connection Namespace WsConn Request World : Type}.
Abbreviation Server := (@Server Connection Namespace WsConn Request World).
Abbreviation ServerEventCallback := (@ServerEventCallback Connection World).
Implicit Types (s : Server) (callback : ServerEventCallback) (conn : Connection) (w : World).

Lemma listeners_On eventName callback s :
  listeners eventName (On eventName callback s) = listeners eventName s ++ [callback].
Proof.
  unfold listeners, On. simpl. rewrite lookup_insert_eq. simpl.
  destruct (callbacks s !! eventName) as [c|] eqn:Hc; simpl.
  - by rewrite Hc.
  - by rewrite lookup_insert_eq.
Qed.

Lemma listeners_On_ne eventName other callback s :
  other ≠ eventName →
  listeners eventName (On other callback s) = listeners eventName s.
Proof.
  intros Hne. unfold listeners, On. simpl. rewrite lookup_insert_ne by done.
  destruct (callbacks s !! other); [done|]. by rewrite lookup_insert_ne.
Qed.

Lemma listeners_registered eventName (regs : list (string * ServerEventCallback)) s :
  listeners eventName (foldl (λ s r, On r.1 r.2 s) s regs)
    = listeners eventName s ++ (filter (λ r, r.1 = eventName) regs).*2.
Proof.
  revert s; induction regs as [|[name callback] regs IH]; intros s; simpl.
  - by rewrite app_nil_r.
  - rewrite IH. rewrite filter_cons. simpl. case_decide as Hn.
    + subst name. by rewrite listeners_On, <- app_assoc.
    + by rewrite listeners_On_ne.
Qed.

(** C6. [Emit] calls the listeners registered under the name one after the
    other, each on the state the one before left, in the order of the list
    kept for that name; [On] appends to that list and leaves the lists of
    the other names alone, so the list is the listeners in the order they
    were registered; and [Emit] on a name without listeners, whether the
    name was never registered or its list is empty, returns the state it
    was given. *)
Theorem Emit_in_registration_order eventName conn s w :
  Emit eventName conn s w
    = foldl (λ w callback, callback conn w) w (listeners eventName s)
  ∧ (∀ callback,
       listeners eventName (On eventName callback s) = listeners eventName s ++ [callback])
  ∧ (∀ other callback, other ≠ eventName →
       listeners eventName (On other callback s) = listeners eventName s)
  ∧ (∀ regs : list (string * ServerEventCallback),
       listeners eventName (foldl (λ s r, On r.1 r.2 s) s regs)
         = listeners eventName s ++ (filter (λ r, r.1 = eventName) regs).*2)
  ∧ (∀ (handler : @ConnectionHandler Connection WsConn Request World)
       (nsHandler : @NamespaceHandler Namespace World),
       listeners eventName (NewServer handler nsHandler) = [])
  ∧ (listeners eventName s = [] → Emit eventName conn s w = w).
Proof.
  assert (HE : Emit eventName conn s w
                 = foldl (λ w callback, callback conn w) w (listeners eventName s)).
  { unfold Emit, listeners. by destruct (callbacks s !! eventName). }
  split_and!.
  - exact HE.
  - intros callback. apply listeners_On.
  - intros other callback. apply listeners_On_ne.
  - intros regs. apply listeners_registered.
  - done.
  - intros Hnone. by rewrite HE, Hnone.
Qed.

End EventBus.

Section Admission.
Context {Connection Namespace WsConn Request World : Type}.
Context (Referer : Request → string) (URL_String : Request → string).
Context (Join : Connection → string → World → World) (Name : Namespace → string).
Context (NamespaceFromRequest : Request → result string).
Context (websocket_Upgrade : Request → gmap string string → nat → nat → result WsConn).
Abbreviation Server := (@Server Connection Namespace WsConn Request World).
Abbreviation St := (@St Connection World).

(** The name of the namespace a request is admitted to. *)
Definition resolvedName (r : Request) : string :=
  match NamespaceFromRequest r with
  | Ok nsName => nsName
  | Err _ => DEFAULT_NAMESPACE
  end.

(** The header at the time of the upgrade. *)
Definition admissionHeader (r : Request) (st : St) : gmap string string :=
  <["Access-Control-Allow-Credentials" := "true"]>
    (<["Access-Control-Allow-Origin" := getClientOrigin Referer r]> (header st)).

(** The steps up to the upgrade. *)
Definition stepsBeforeUpgrade (s : Server) (r : Request) (st : St)
  : list (@step Connection) :=
  [Logged (LogHandling (getClientOrigin Referer r))]
  ++ match NamespaceFromRequest r with
     | Ok _ => []
     | Err _ => [Logged (LogDefaulting DEFAULT_NAMESPACE)]
     end
  ++ match NamespaceByName (nsHandler s) (resolvedName r) (world st) with
     | Some _ => []
     | None => [Logged (LogCreating (resolvedName r)); NamespaceCreated (resolvedName r)]
     end
  ++ [UpgradeAttempted].

(** The program state after namespace resolution. *)
Definition worldAfterResolution (s : Server) (r : Request) (st : St) : World :=
  match NamespaceByName (nsHandler s) (resolvedName r) (world st) with
  | Some _ => world st
  | None => (NewNamespace (nsHandler s) (resolvedName r) (world st)).2
  end.

(** C7. When the upgrade fails, [ServeHTTP] logs the failure and returns.
    The steps it has taken are those up to the upgrade and the log line:
    no connection is created, nothing joins a namespace, no event is
    emitted and no connection is handed off. The program state is the
    one the request found, except for the namespace that [NewNamespace]
    registered when the name was not known; the response header is as it
    was set before the upgrade. *)
Theorem ServeHTTP_upgrade_failure (s : Server) (r : Request) (st : St) (err : error) :
  websocket_Upgrade r (admissionHeader r st) MAX_READ_BUF_SIZE MAX_WRITE_BUF_SIZE = Err err →
  (ServeHTTP Referer URL_String Join Name NamespaceFromRequest websocket_Upgrade s r st).2
    = mkSt (worldAfterResolution s r st) (admissionHeader r st)
        (steps st ++ stepsBeforeUpgrade s r st
           ++ [Logged (LogUpgradeFailed (URL_String r) err)])
  ∧ Forall (λ e, afterUpgrade e = false)
      (stepsBeforeUpgrade s r st ++ [Logged (LogUpgradeFailed (URL_String r) err)])
  ∧ (is_Some (NamespaceByName (nsHandler s) (resolvedName r) (world st)) →
       worldAfterResolution s r st = world st).
Proof.
  intros Hup. split_and!.
  - unfold ServeHTTP, worldAfterResolution, stepsBeforeUpgrade, resolvedName in *.
    unfold admissionHeader in *.
    unfold mbind, M_bind, mret, M_ret, logPrintf, did, Header_Set, readWorld, onWorld,
      getHeader. simpl.
    destruct (NamespaceFromRequest r) as [nsName|e]; simpl;
      destruct (NamespaceByName (nsHandler s) _ (world st)) as [ns|] eqn:Hns; simpl;
      try destruct (NewNamespace (nsHandler s) _ (world st)) as [ns w'] eqn:Hnew; simpl;
      rewrite Hup; simpl; by rewrite <- ?app_assoc.
  - unfold stepsBeforeUpgrade.
    destruct (NamespaceFromRequest r), (NamespaceByName _ _ _);
      repeat (apply Forall_cons; split; [done|]); apply Forall_nil; done.
  - unfold worldAfterResolution. by intros [ns ->].
Qed.

End Admission.

(** A server for the examples: connections are numbers, namespaces are
    their names, a request is its referer, and the program state is the
    list of registered namespaces with the list of marks the listeners
    leave. No request names a namespace and every upgrade fails. *)
Definition exampleWorld : Type := list string * list nat.

Definition markingListener (mark : nat) : @ServerEventCallback nat exampleWorld :=
  λ _ w, (w.1, w.2 ++ [mark]).

Definition exampleServer : @Server nat string unit string exampleWorld :=
  NewServer
    (mkConnectionHandler (λ _ _ _ w, (0, w)) (λ _ w, w))
    (mkNamespaceHandler
       (λ name w, if decide (name ∈ w.1) then Some name else None)
       (λ name w, (name, (w.1 ++ [name], w.2)))).

Definition exampleServeHTTP :=
  ServeHTTP (Connection := nat) (Namespace := string) (WsConn := unit)
    (World := exampleWorld)
    (λ r : string, r) (λ _, "/ws") (λ _ _ w, w) (λ ns, ns)
    (λ _, Err "no room") (λ _ _ _ _, Err "bad handshake").

Lemma Emit_in_registration_order_witness :
  Emit "disconnection" 7 (On "connection" (markingListener 1) exampleServer) ([], [])
    = ([], [])
  ∧ Emit "connection" 7
      (On "connection" (markingListener 2)
         (On "disconnection" (markingListener 3)
            (On "connection" (markingListener 1) exampleServer))) ([], [])
      = ([], [1; 2]).
Proof.
  split.
  - apply (Emit_in_registration_order "disconnection" 7
             (On "connection" (markingListener 1) exampleServer) ([], [])).
    reflexivity.
  - exact (proj1 (Emit_in_registration_order "connection" 7
             (On "connection" (markingListener 2)
                (On "disconnection" (markingListener 3)
                   (On "connection" (markingListener 1) exampleServer))) ([], []))).
Defined.

Lemma ServeHTTP_upgrade_failure_witness :
  (exampleServeHTTP exampleServer "http://example.org/room" (mkSt ([], []) ∅ [])).2
    = mkSt (["lobby"], [])
        (<["Access-Control-Allow-Credentials" := "true"]>
           (<["Access-Control-Allow-Origin" := "http://example.org"]> ∅))
        [Logged (LogHandling "http://example.org");
         Logged (LogDefaulting "lobby");
         Logged (LogCreating "lobby");
         NamespaceCreated "lobby";
         UpgradeAttempted;
         Logged (LogUpgradeFailed "/ws" "bad handshake")].
Proof.
  exact (proj1 (ServeHTTP_upgrade_failure
                  (Connection := nat) (Namespace := string) (WsConn := unit)
                  (World := exampleWorld)
                  (λ r : string, r) (λ _, "/ws") (λ _ _ w, w) (λ ns, ns)
                  (λ _, Err "no room") (λ _ _ _ _, Err "bad handshake")
                  exampleServer "http://example.org/room" (mkSt ([], []) ∅ [])
                  "bad handshake" eq_refl)).
Defined.

End ServerFacts.

(** * Further properties *)

(** ** Identity extraction and the YouTube factory *)
Module IdentityMore.
Import GoStrings GoStringsFacts Stream IdentityFacts RefGraphFacts.

(** X7. [soundCloudIdFromUrl] never fails; it returns what follows the last
    ['/'] of the permalink, the whole permalink when it has no ['/'], and
    so never an id with a ['/'] in it. *)
Theorem soundCloudIdFromUrl_last_segment (permalink : string) :
  (Contains permalink "/" = false → soundCloudIdFromUrl permalink = Ok permalink)
  ∧ (∀ pre lastSeg,
       permalink = pre +:+ "/" +:+ lastSeg → Contains lastSeg "/" = false →
       soundCloudIdFromUrl permalink = Ok lastSeg)
  ∧ ∃ id, soundCloudIdFromUrl permalink = Ok id ∧ Contains id "/" = false.
Proof.
  assert (Hno : Contains permalink "/" = false → soundCloudIdFromUrl permalink = Ok permalink).
  { intros Hc%Contains_false. unfold soundCloudIdFromUrl. by rewrite Split_absent. }
  assert (Hlast : ∀ pre lastSeg, Contains lastSeg "/" = false →
            soundCloudIdFromUrl (pre +:+ "/" +:+ lastSeg) = Ok lastSeg).
  { intros pre lastSeg Hc.
    destruct (Split_char_last pre lastSeg "/"%char Hc) as [Hl _].
    unfold soundCloudIdFromUrl. cbv zeta. by rewrite (lookup_total_last _ _ Hl). }
  split_and!; [done|by intros pre lastSeg ->; apply Hlast|].
  destruct (Contains permalink "/") eqn:Hc.
  - apply (Contains_char_last permalink "/"%char) in Hc as (pre & post & -> & Hpost).
    exists post. by rewrite Hlast.
  - exists permalink. by rewrite Hno.
Qed.

Lemma soundCloudIdFromUrl_last_segment_witness :
  soundCloudIdFromUrl "https://soundcloud.com/artist/track" = Ok "track"
  ∧ soundCloudIdFromUrl "track" = Ok "track".
Proof.
  destruct (soundCloudIdFromUrl_last_segment "https://soundcloud.com/artist/track")
    as (_ & H & _).
  destruct (soundCloudIdFromUrl_last_segment "track") as (H' & _).
  split.
  - exact (H "https://soundcloud.com/artist" "track" eq_refl eq_refl).
  - exact (H' eq_refl).
Defined.

Lemma ytIdOfSegment_bytes x lastSeg :
  x ∈ String.list_ascii_of_string (ytIdOfSegment lastSeg) →
  x ∈ String.list_ascii_of_string lastSeg.
Proof.
  unfold ytIdOfSegment. destruct (Index lastSeg "watch?v="); [|done].
  intros Hx. by apply elem_of_upTo, elem_of_upTo, elem_of_slice_from in Hx.
Qed.

(** X8. An id that [ytVideoIdFromUrl] returns has no ['/'] in it, and when the
    last segment of the URL contains [watch?v=] it has no ['&'] in it
    either. *)
Theorem ytVideoIdFromUrl_id_clean (videoUrl id : string) :
  ytVideoIdFromUrl videoUrl = Ok id →
  Contains id "/" = false
  ∧ (∀ pre lastSeg,
       videoUrl = pre +:+ "/" +:+ lastSeg → Contains lastSeg "/" = false →
       Contains lastSeg "watch?v=" = true → Contains id "&" = false).
Proof.
  intros Hid.
  destruct (Contains videoUrl "/") eqn:Hc;
    [|by rewrite ytVideoIdFromUrl_no_slash in Hid].
  apply (Contains_char_last videoUrl "/"%char) in Hc as (pre & post & -> & Hpost).
  rewrite ytVideoIdFromUrl_last_segment in Hid by done. injection Hid as <-.
  split.
  - apply (Contains_char_false _ "/"%char). intros Hin%ytIdOfSegment_bytes.
    by apply (Contains_char_false _ "/"%char) in Hpost.
  - intros pre' lastSeg Heq Hno Hm.
    assert (ytVideoIdFromUrl (pre +:+ "/" +:+ post) = Ok (ytIdOfSegment lastSeg)) as Hl
      by (rewrite Heq; by apply ytVideoIdFromUrl_last_segment).
    rewrite ytVideoIdFromUrl_last_segment in Hl by done. injection Hl as ->.
    unfold ytIdOfSegment. unfold Contains in Hm.
    destruct (Index lastSeg "watch?v="); [|done]. by apply upTo_no_sep.
Qed.

Lemma ytVideoIdFromUrl_id_clean_witness :
  Contains "abc123" "/" = false ∧ Contains "abc123" "&" = false.
Proof.
  destruct (ytVideoIdFromUrl_id_clean "https://www.youtube.com/watch?v=abc123&t=5" "abc123"
              eq_refl) as [Hslash Hamp].
  split; [exact Hslash|].
  exact (Hamp "https://www.youtube.com" "watch?v=abc123&t=5" eq_refl eq_refl eq_refl).
Defined.

Section Factory.
Context {R : Type}.

(** X9. [NewYouTubeStream] stores the URL cut before its first ['&']: the
    stored URL has no ['&'], making a stream from it again stores the same
    URL, and a URL [base&rest] whose [base] has no ['&'] gives a stream of
    identity [base], whatever [rest] is. The thumbnail is built from the id of the stored
    URL and is empty exactly when that URL has no ['/']. *)
Theorem NewYouTubeStream_normalises (cfg : ApiConfig) (now : Time) (videoUrl : string) :
  GetStreamURL (R := R) (NewYouTubeStream cfg now videoUrl) = upTo "&" videoUrl
  ∧ Contains (GetStreamURL (R := R) (NewYouTubeStream cfg now videoUrl)) "&" = false
  ∧ (∀ now', GetStreamURL (R := R)
               (NewYouTubeStream cfg now'
                  (GetStreamURL (R := R) (NewYouTubeStream cfg now videoUrl)))
             = GetStreamURL (R := R) (NewYouTubeStream cfg now videoUrl))
  ∧ (∀ base rest,
       Contains base "&" = false →
       Stream_UUID (R := R) (NewYouTubeStream cfg now (base +:+ "&" +:+ rest)) = base)
  ∧ Thumbnail (schemaOf (R := R) (NewYouTubeStream cfg now videoUrl))
      = match ytVideoIdFromUrl (upTo "&" videoUrl) with
        | Ok id => "https://img.youtube.com/vi/" +:+ id +:+ "/default.jpg"
        | Err _ => ""
        end
  ∧ (Thumbnail (schemaOf (R := R) (NewYouTubeStream cfg now videoUrl)) = ""
     ↔ Contains (upTo "&" videoUrl) "/" = false).
Proof.
  assert (Hurl : ∀ now u, GetStreamURL (R := R) (NewYouTubeStream cfg now u) = upTo "&" u).
  { intros now' u. unfold NewYouTubeStream, GetStreamURL. simpl. case_decide as Hamp.
    - apply lookup_total_head, Split_head. done.
    - unfold upTo. destruct (Index u "&") eqn:Hi; [|done].
      exfalso. apply Hamp, Split_length_gt1; [done|]. unfold Contains. by rewrite Hi. }
  assert (Hthumb : Thumbnail (schemaOf (R := R) (NewYouTubeStream cfg now videoUrl))
      = match ytVideoIdFromUrl (upTo "&" videoUrl) with
        | Ok id => "https://img.youtube.com/vi/" +:+ id +:+ "/default.jpg"
        | Err _ => ""
        end).
  { pose proof (Hurl now videoUrl) as Hu. unfold NewYouTubeStream, GetStreamURL in *.
    simpl in *. by rewrite Hu. }
  split_and!.
  - apply Hurl.
  - rewrite Hurl. by apply upTo_no_sep.
  - intros now'. rewrite !Hurl. by apply upTo_idemp.
  - intros base rest Hfree%(Contains_char_false _ "&"%char).
    change Stream_UUID with (GetStreamURL (R := R)). rewrite Hurl.
    by rewrite (upTo_after_free _ "&"%char "" _ Hfree).
  - exact Hthumb.
  - rewrite Hthumb. pose proof (ytVideoIdFromUrl_Err_iff (upTo "&" videoUrl)) as Herr.
    destruct (ytVideoIdFromUrl (upTo "&" videoUrl)) as [id|e] eqn:Hid.
    + split; [done|]. intros Hc. apply Herr in Hc. done.
    + split; [intros _|done]. apply Herr.
      destruct (Contains (upTo "&" videoUrl) "/") eqn:Hc; [|by apply Herr].
      apply (Contains_char_last _ "/"%char) in Hc as (pre & post & Heq & Hpost).
      rewrite Heq, ytVideoIdFromUrl_last_segment in Hid by done. done.
Qed.

End Factory.

Lemma NewYouTubeStream_normalises_witness :
  Stream_UUID (R := taggedRef)
    (NewYouTubeStream (mkApiConfig "k1" "k2" "k3") 0%Z "https://youtu.be/abc&t=5")
  = "https://youtu.be/abc".
Proof.
  destruct (NewYouTubeStream_normalises (R := taggedRef) (mkApiConfig "k1" "k2" "k3") 0%Z
              "https://youtu.be/abc&t=5") as (_ & _ & _ & H & _).
  exact (H "https://youtu.be/abc" "t=5" eq_refl).
Defined.

End IdentityMore.

(** ** More of the ref-graph *)
Module RefGraphMore.
Import Stream RefGraphFacts.

Section RefGraph.
Context {R : Type} `{StreamRef R}.
Implicit Types (s : @StreamMetaSchema R) (ref value : R) (key : string).

Lemma meta_eq s s' :
  CreationSource s = CreationSource s' → LastUpdated s = LastUpdated s' →
  ParentRefs s = ParentRefs s' → LabelledRefs s = LabelledRefs s' → s = s'.
Proof. destruct s, s'; simpl. by intros -> -> -> ->. Qed.

(** X1. [RemoveLabelledRef] on a label that is not in the map returns false and
    changes nothing; on a label that is in the map it returns true. Either
    way the label is absent afterwards, so that [GetLabelledRef] finds
    nothing and a second removal returns false; the other labels keep their
    references. *)
Theorem RemoveLabelledRef_spec key s :
  (LabelledRefs s !! key = None → RemoveLabelledRef key s = (false, s))
  ∧ (is_Some (LabelledRefs s !! key) →
       (RemoveLabelledRef key s).1 = true
       ∧ LabelledRefs (RemoveLabelledRef key s).2 = delete key (LabelledRefs s))
  ∧ GetLabelledRef key (RemoveLabelledRef key s).2 = None
  ∧ (RemoveLabelledRef key (RemoveLabelledRef key s).2).1 = false
  ∧ (∀ other, other ≠ key →
       GetLabelledRef other (RemoveLabelledRef key s).2 = GetLabelledRef other s).
Proof.
  assert (Hgone : LabelledRefs (RemoveLabelledRef key s).2 !! key = None).
  { unfold RemoveLabelledRef. destruct (LabelledRefs s !! key) eqn:Hk; simpl;
      [apply lookup_delete_eq|done]. }
  split_and!.
  - unfold RemoveLabelledRef. by intros ->.
  - unfold RemoveLabelledRef. by intros [x ->].
  - by rewrite GetLabelledRef_lookup.
  - unfold RemoveLabelledRef at 1. by rewrite Hgone.
  - intros other Hne. rewrite !GetLabelledRef_lookup. unfold RemoveLabelledRef.
    destruct (LabelledRefs s !! key); simpl; [by rewrite lookup_delete_ne|done].
Qed.

(** X2. [RemoveParentRef] removes by identity. When no reference of that
    identity is stored it returns false and changes nothing; when one is
    stored, whichever reference it is, it returns true and the set is one
    smaller. Afterwards no reference of that identity is stored: a second
    removal returns false and an [AddParentRef] of it returns true. *)
Theorem RemoveParentRef_spec ref s :
  (ParentRefs s !! UUID ref = None → RemoveParentRef ref s = (false, s))
  ∧ (is_Some (ParentRefs s !! UUID ref) →
       (RemoveParentRef ref s).1 = true
       ∧ ParentRefs (RemoveParentRef ref s).2 = delete (UUID ref) (ParentRefs s)
       ∧ S (size (ParentRefs (RemoveParentRef ref s).2)) = size (ParentRefs s))
  ∧ (∀ ref', UUID ref' = UUID ref → RemoveParentRef ref' s = RemoveParentRef ref s)
  ∧ (RemoveParentRef ref (RemoveParentRef ref s).2).1 = false
  ∧ (AddParentRef ref (RemoveParentRef ref s).2).1 = true
  ∧ LabelledRefs (RemoveParentRef ref s).2 = LabelledRefs s.
Proof.
  assert (Hgone : ParentRefs (RemoveParentRef ref s).2 !! UUID ref = None).
  { unfold RemoveParentRef. destruct (ParentRefs s !! UUID ref) eqn:Hk; simpl;
      [apply lookup_delete_eq|done]. }
  split_and!.
  - unfold RemoveParentRef. by intros ->.
  - unfold RemoveParentRef. intros [x Hx]. rewrite Hx. simpl. split_and!; [done..|].
    rewrite map_size_delete_Some by eauto.
    assert (size (ParentRefs s) ≠ 0); [|lia].
    intros Hz%map_size_empty_inv. by rewrite Hz in Hx.
  - intros ref' Hid. unfold RemoveParentRef. by rewrite Hid.
  - unfold RemoveParentRef at 1. by rewrite Hgone.
  - unfold AddParentRef. by rewrite Hgone.
  - unfold RemoveParentRef. by destruct (ParentRefs s !! UUID ref).
Qed.

(** X3. Adding a reference of a new identity and removing it again, or setting
    a new label and removing it again, leaves the metadata exactly as it
    was; so does removing a stored reference and adding it again. *)
Theorem add_remove_roundtrip ref key s :
  (ParentRefs s !! UUID ref = None →
     RemoveParentRef ref (AddParentRef ref s).2 = (true, s))
  ∧ (LabelledRefs s !! key = None →
       RemoveLabelledRef key (SetLabelledRef key ref s).2 = (true, s))
  ∧ (ParentRefs s !! UUID ref = Some ref →
       AddParentRef ref (RemoveParentRef ref s).2 = (true, s)).
Proof.
  split_and!.
  - intros Hnew. unfold AddParentRef. rewrite Hnew. unfold RemoveParentRef. simpl.
    rewrite lookup_insert_eq. f_equal. apply meta_eq; simpl; try done.
    by apply delete_insert_id.
  - intros Hnew. unfold SetLabelledRef. rewrite Hnew. unfold RemoveLabelledRef. simpl.
    rewrite lookup_insert_eq. f_equal. apply meta_eq; simpl; try done.
    by apply delete_insert_id.
  - intros Hin. unfold RemoveParentRef. rewrite Hin. unfold AddParentRef. simpl.
    rewrite lookup_delete_eq. f_equal. apply meta_eq; simpl; try done.
    by apply insert_delete_id.
Qed.

(** Every parent reference is stored under its own identity. *)
Definition keyedByIdentity s : Prop :=
  ∀ k r, ParentRefs s !! k = Some r → UUID r = k.

Lemma keyedByIdentity_runOp op s : keyedByIdentity s → keyedByIdentity (runOp op s).
Proof.
  intros Hinv. destruct op as [ref|ref|key value|key|t|source]; simpl.
  - unfold AddParentRef. destruct (ParentRefs s !! UUID ref) as [x|] eqn:Hk; [done|].
    intros k r. simpl. destruct (decide (UUID ref = k)) as [<-|Hne].
    + rewrite lookup_insert_eq. by intros [= <-].
    + rewrite lookup_insert_ne by done. apply Hinv.
  - unfold RemoveParentRef. destruct (ParentRefs s !! UUID ref) as [x|] eqn:Hk; [|done].
    intros k r. simpl. intros Hl. apply lookup_delete_Some in Hl as [_ Hl]. by apply Hinv.
  - unfold SetLabelledRef. by destruct (LabelledRefs s !! key).
  - unfold RemoveLabelledRef. by destruct (LabelledRefs s !! key).
  - done.
  - done.
Qed.

Lemma keyedByIdentity_runOps ops s : keyedByIdentity s → keyedByIdentity (runOps ops s).
Proof.
  revert s; induction ops as [|op ops IH]; intros s Hinv; [done|].
  apply IH. by apply keyedByIdentity_runOp.
Qed.

Lemma elem_of_GetParentRefs r s :
  r ∈ GetParentRefs s ↔ ∃ k, ParentRefs s !! k = Some r.
Proof.
  unfold GetParentRefs. rewrite list_elem_of_fmap. split.
  - intros ([k r'] & Heq & Hin%elem_of_map_to_list). simpl in Heq. subst r'. by exists k.
  - intros [k Hk]. exists (k, r). split; [done|]. by apply elem_of_map_to_list.
Qed.

(** X4. Whatever sequence of metadata operations is applied to a fresh
    [NewStreamMeta], the parent references stay keyed by their identities:
    [GetParentRefs] returns as many references as the map holds, no two of
    them with the same identity, and [AddParentRef] returns false exactly
    when a reference of the given identity is among them. *)
Theorem parent_refs_unique_per_identity (ops : list (@metaOp R)) (now : Time) ref :
  keyedByIdentity (runOps ops (NewStreamMeta now))
  ∧ NoDup (UUID <$> GetParentRefs (runOps ops (NewStreamMeta now)))
  ∧ length (GetParentRefs (runOps ops (NewStreamMeta now)))
      = size (ParentRefs (runOps ops (NewStreamMeta now)))
  ∧ ((AddParentRef ref (runOps ops (NewStreamMeta now))).1 = false
     ↔ ∃ r, r ∈ GetParentRefs (runOps ops (NewStreamMeta now)) ∧ UUID r = UUID ref).
Proof.
  assert (Hinv : keyedByIdentity (runOps ops (NewStreamMeta now))).
  { apply keyedByIdentity_runOps. intros k r Hk. simpl in Hk. by rewrite lookup_empty in Hk. }
  set (s := runOps ops (NewStreamMeta now)) in *.
  split_and!.
  - exact Hinv.
  - unfold GetParentRefs. rewrite <- list_fmap_compose.
    rewrite (list_fmap_ext (UUID ∘ snd) fst (map_to_list (ParentRefs s))).
    + apply NoDup_fst_map_to_list.
    + intros i [k r] Hi. simpl. apply Hinv, elem_of_map_to_list.
      by apply list_elem_of_lookup_2 in Hi.
  - unfold GetParentRefs. by rewrite length_fmap, length_map_to_list.
  - unfold AddParentRef. destruct (ParentRefs s !! UUID ref) as [r|] eqn:Hk; simpl.
    + split; [intros _|done]. exists r. split; [apply elem_of_GetParentRefs; eauto|].
      by apply Hinv in Hk.
    + split; [done|]. intros (r & [k Hr]%elem_of_GetParentRefs & Hid).
      apply Hinv in Hr as Hrk. congruence.
Qed.

(** The time and the source an operation sets, if it sets one. *)
Definition setsLastUpdated (op : @metaOp R) : option Time :=
  match op with OpSetLastUpdated t => Some t | _ => None end.

Definition setsCreationSource (op : @metaOp R) : option StreamCreationSource :=
  match op with OpSetCreationSource source => Some source | _ => None end.

(** X5. The operations on references are no update of the stream: the
    last-updated time and the creation source after a sequence of
    operations are those of the last [SetLastUpdated] and
    [SetCreationSource] in it, and the ones before when it has none. *)
Theorem ref_operations_keep_timestamp (ops : list (@metaOp R)) s :
  LastUpdated (runOps ops s) = default (LastUpdated s) (last (omap setsLastUpdated ops))
  ∧ CreationSource (runOps ops s)
      = default (CreationSource s) (last (omap setsCreationSource ops))
  ∧ (∀ ref, LastUpdated (AddParentRef ref s).2 = LastUpdated s
            ∧ LastUpdated (RemoveParentRef ref s).2 = LastUpdated s)
  ∧ (∀ key value, LastUpdated (SetLabelledRef key value s).2 = LastUpdated s
                  ∧ LastUpdated (RemoveLabelledRef key s).2 = LastUpdated s).
Proof.
  assert (Hop : ∀ op s, LastUpdated (runOp op s) = default (LastUpdated s) (setsLastUpdated op)
                        ∧ CreationSource (runOp op s)
                          = default (CreationSource s) (setsCreationSource op)).
  { intros [ref|ref|key value|key|t|source] s0; simpl; try done.
    - unfold AddParentRef. by destruct (ParentRefs s0 !! UUID ref).
    - unfold RemoveParentRef. by destruct (ParentRefs s0 !! UUID ref).
    - unfold SetLabelledRef. by destruct (LabelledRefs s0 !! key).
    - unfold RemoveLabelledRef. by destruct (LabelledRefs s0 !! key). }
  split_and!.
  - revert s. induction ops as [|op ops IH] using rev_ind; intros s; [done|].
    unfold runOps. rewrite foldl_app. simpl. fold (runOps ops s).
    rewrite (proj1 (Hop _ _)), IH, omap_app. simpl.
    destruct (setsLastUpdated op) as [t|]; simpl.
    + by rewrite last_snoc.
    + by rewrite app_nil_r.
  - revert s. induction ops as [|op ops IH] using rev_ind; intros s; [done|].
    unfold runOps. rewrite foldl_app. simpl. fold (runOps ops s).
    rewrite (proj2 (Hop _ _)), IH, omap_app. simpl.
    destruct (setsCreationSource op) as [t|]; simpl.
    + by rewrite last_snoc.
    + by rewrite app_nil_r.
  - intros ref. split.
    + apply (Hop (OpAddParentRef ref)).
    + apply (Hop (OpRemoveParentRef ref)).
  - intros key value. split.
    + apply (Hop (OpSetLabelledRef key value)).
    + apply (Hop (OpRemoveLabelledRef key)).
Qed.

End RefGraph.

Lemma RemoveLabelledRef_spec_witness :
  RemoveLabelledRef (R := taggedRef) "next" (NewStreamMeta 0%Z) = (false, NewStreamMeta 0%Z)
  ∧ (RemoveLabelledRef "next" (SetLabelledRef "next" ("a", 1) (NewStreamMeta 0%Z)).2).1 = true.
Proof.
  destruct (RemoveLabelledRef_spec (R := taggedRef) "next" (NewStreamMeta 0%Z)) as (Hnone & _).
  destruct (RemoveLabelledRef_spec (R := taggedRef) "next"
              (SetLabelledRef "next" ("a", 1) (NewStreamMeta 0%Z)).2) as (_ & Hsome & _).
  split.
  - apply Hnone. reflexivity.
  - apply Hsome. by eexists.
Defined.

Lemma RemoveParentRef_spec_witness :
  RemoveParentRef (R := taggedRef) ("playlist", 1) (NewStreamMeta 0%Z)
    = (false, NewStreamMeta 0%Z)
  ∧ (RemoveParentRef ("playlist", 2)
       (AddParentRef ("playlist", 1) (NewStreamMeta 0%Z)).2).1 = true.
Proof.
  destruct (RemoveParentRef_spec (R := taggedRef) ("playlist", 1) (NewStreamMeta 0%Z))
    as (Hnone & _).
  destruct (RemoveParentRef_spec (R := taggedRef) ("playlist", 2)
              (AddParentRef ("playlist", 1) (NewStreamMeta 0%Z)).2) as (_ & Hsome & _).
  split.
  - apply Hnone. reflexivity.
  - apply Hsome. by eexists.
Defined.

Lemma add_remove_roundtrip_witness :
  RemoveParentRef (R := taggedRef) ("playlist", 1)
    (AddParentRef ("playlist", 1) (NewStreamMeta 0%Z)).2 = (true, NewStreamMeta 0%Z)
  ∧ RemoveLabelledRef (R := taggedRef) "next"
      (SetLabelledRef "next" ("playlist", 1) (NewStreamMeta 0%Z)).2
    = (true, NewStreamMeta 0%Z).
Proof.
  destruct (add_remove_roundtrip (R := taggedRef) ("playlist", 1) "next" (NewStreamMeta 0%Z))
    as (Hp & Hl & _).
  split; [apply Hp|apply Hl]; reflexivity.
Defined.

End RefGraphMore.

(** ** [FetchMetadata] of every variant *)
Module FetchFacts.
Import GoStrings GoStringsFacts Stream IdentityFacts IdentityMore RefGraphFacts.

(** Libraries for the examples: every request is answered with the body
    [ok], which decodes to fixed items; the clip parameter of a URL is what
    follows [clip=]; a duration text is its length in seconds; and the
    probe knows one file of 2500000 microseconds. *)
Definition exampleLibraries : Libraries :=
  mkLibraries
    (λ s, "'" +:+ s +:+ "'")
    (mkApiConfig "yt-key" "twitch-key" "sc-key")
    (λ _, Ok (Ok "ok"))
    (λ _ _, None)
    (λ _, Ok (Ok "ok"))
    (λ s, s)
    (λ url _, match Index url "clip=" with
              | Some m => Ok (slice_from (m + 5) url)
              | None => Ok ""
              end)
    (λ _, Ok (mkSoundCloudResponseItem "song" 180000 "avatar"))
    (λ _, Ok [mkYouTubeVideoItem {["duration" := DString "PT1H2M3S"]} "X"])
    (λ _, Ok (mkTwitchResponseItem "vod" 60 ["t1"; "t2"]))
    (λ _, Ok (mkTwitchClipResponseItem "clip" 30%Q "medium" "vod"))
    (λ _, Ok "payload")
    (λ _, Ok "payload")
    (λ t, Ok (Z.of_nat (String.length t)))
    (λ url, "/data/" +:+ url)
    None
    (λ path, if decide (path = "/data/a.mp4") then None else Some "no such file")
    (λ _, None)
    (λ _, 2500000%Z)
    (λ x y, (x / y)%Q).

Section Fetch.
Context {R : Type} `{StreamRef R}.
Variable lib : Libraries.
Implicit Types (s : @Stream R) (schema : @StreamSchema R).

Ltac fetch_cases :=
  repeat match goal with
         | |- context [match ?x with _ => _ end] => destruct x eqn:?
         end.

Ltac fetch_unfold :=
  unfold FetchMetadata, StreamSchema_FetchMetadata, YouTubeStream_FetchMetadata,
    LocalVideoStream_FetchMetadata, RemoteVideoStream_FetchMetadata,
    TwitchStream_FetchMetadata, TwitchClipStream_FetchMetadata,
    SoundCloudStream_FetchMetadata, youTubeFetch, twitchFetch, twitchClipFetch,
    soundCloudFetch, sendAndDecode.

(** X10. Whatever the variant and whatever the libraries answer, one call of
    [FetchMetadata] calls the callback exactly once. When the error it
    passes is nil the data is a payload; when it passes an error the data
    is nil or empty. It starts at most one goroutine and sends at most one
    request through the HTTP client. *)
Theorem FetchMetadata_calls_back_once s :
  ∃ data err,
    flat_map callsOf (FetchMetadata lib s) = [(data, err)]
    ∧ (err = None → is_Some data)
    ∧ (is_Some err → data = None ∨ data = Some "")
    ∧ sum_list (spawnsOf <$> FetchMetadata lib s) ≤ 1
    ∧ length (flat_map requestsOf (FetchMetadata lib s)) ≤ 1.
Proof.
  destruct s as [schema|k schema|schema|schema|schema k|schema k|schema k];
    fetch_unfold; fetch_cases; simpl;
    eexists _, _; (split_and!; [reflexivity|try done; eauto..]);
    try (intros [? [=]]); try lia; eauto.
Qed.




(** X12. A failed id extraction is reported by the caller itself, with empty
    data, and nothing else happens: a YouTube stream whose URL has no ['/'],
    a Twitch stream whose URL does not split in two at [/videos/] and a
    clip stream whose URL has no [clip] parameter start no goroutine and
    send no request. In every other case, and always for a SoundCloud, a
    local and a remote stream, exactly one goroutine is started. *)
Theorem identity_failure_stays_local (apiKey : string) schema :
  (Contains (Url schema) "/" = false →
     FetchMetadata lib (YouTubeStream apiKey schema)
       = [Callback schema (Some "") (Some "invalid url")])
  ∧ (Contains (Url schema) "/" = true →
       sum_list (spawnsOf <$> FetchMetadata lib (YouTubeStream apiKey schema)) = 1)
  ∧ (length (Split (Url schema) "/videos/") ≠ 2 →
       FetchMetadata lib (TwitchStream schema apiKey)
         = [Callback schema (Some "") (Some "invalid url")])
  ∧ (length (Split (Url schema) "/videos/") = 2 →
       sum_list (spawnsOf <$> FetchMetadata lib (TwitchStream schema apiKey)) = 1)
  ∧ (∀ e, twitchClipIdFromUrl lib (Url schema) = Err e →
       FetchMetadata lib (TwitchClipStream schema apiKey)
         = [Callback schema (Some "") (Some e)])
  ∧ (is_Ok (twitchClipIdFromUrl lib (Url schema)) = true →
       sum_list (spawnsOf <$> FetchMetadata lib (TwitchClipStream schema apiKey)) = 1)
  ∧ sum_list (spawnsOf <$> FetchMetadata lib (SoundCloudStream schema apiKey)) = 1
  ∧ sum_list (spawnsOf <$> FetchMetadata lib (LocalVideoStream schema)) = 1
  ∧ sum_list (spawnsOf <$> FetchMetadata lib (RemoteVideoStream schema)) = 1.
Proof.
  split_and!.
  - intros Hc. unfold FetchMetadata, YouTubeStream_FetchMetadata.
    by rewrite ytVideoIdFromUrl_no_slash.
  - intros Hc. unfold FetchMetadata, YouTubeStream_FetchMetadata.
    destruct (ytVideoIdFromUrl (Url schema)) eqn:Hid.
    + fetch_unfold. fetch_cases; reflexivity.
    + destruct (Contains_char_last _ "/"%char Hc) as (pre & post & Heq & Hpost).
      by rewrite Heq, ytVideoIdFromUrl_last_segment in Hid.
  - intros Hl. unfold FetchMetadata, TwitchStream_FetchMetadata, twitchVideoIdFromUrl.
    cbv zeta. by rewrite decide_True.
  - intros Hl. unfold FetchMetadata, TwitchStream_FetchMetadata, twitchVideoIdFromUrl.
    cbv zeta. rewrite decide_False by (by intros ?). fetch_unfold. fetch_cases; reflexivity.
  - intros e He. unfold FetchMetadata, TwitchClipStream_FetchMetadata. by rewrite He.
  - unfold FetchMetadata, TwitchClipStream_FetchMetadata.
    destruct (twitchClipIdFromUrl lib (Url schema)); [|done].
    intros _. fetch_unfold. fetch_cases; reflexivity.
  - fetch_unfold. fetch_cases; reflexivity.
  - fetch_unfold. fetch_cases; reflexivity.
  - fetch_unfold. fetch_cases; reflexivity.
Qed.

(** X13. [ParseDuration] leaves the item as it is when it returns an error: for
    a missing [duration], for one that is not a string and for a string
    without [PT]. For a string with [PT] it hands what stands between the
    first [PT] and the next one (or the end) to [HumanTimeToSeconds] and,
    when that succeeds, stores the seconds under [duration] and touches no
    other key. It cannot be applied twice: after a success the duration is
    no longer a string and a second call returns an error. *)
Theorem ParseDuration_spec (yt : YouTubeVideoItem) :
  (∀ e, (ParseDuration lib yt).1 = Some e → (ParseDuration lib yt).2 = yt)
  ∧ (yt_ContentDetails yt !! "duration" = None →
       (ParseDuration lib yt).1
         = Some ("missing video data key " +:+ strconv_Quote lib "duration"))
  ∧ (∀ v, yt_ContentDetails yt !! "duration" = Some v → (∀ t, v ≠ DString t) →
       (ParseDuration lib yt).1 = Some "duration value is not a string")
  ∧ (∀ t, yt_ContentDetails yt !! "duration" = Some (DString t) →
       Contains t "PT" = false →
       (ParseDuration lib yt).1 = Some "invalid time format")
  ∧ (∀ pre rest,
       yt_ContentDetails yt !! "duration" = Some (DString (pre +:+ "PT" +:+ rest)) →
       Index (pre +:+ "PT" +:+ rest) "PT" = Some (String.length pre) →
       ParseDuration lib yt
         = match HumanTimeToSeconds lib (upTo "PT" rest) with
           | Err err => (Some err, yt)
           | Ok timeSecs =>
               (None, mkYouTubeVideoItem
                        (<["duration" := DInt64 timeSecs]> (yt_ContentDetails yt))
                        (yt_Snippet_Title yt))
           end)
  ∧ ((ParseDuration lib yt).1 = None →
       ParseDuration lib (ParseDuration lib yt).2
         = (Some "duration value is not a string", (ParseDuration lib yt).2))
  ∧ (∀ k, k ≠ "duration" →
       yt_ContentDetails (ParseDuration lib yt).2 !! k = yt_ContentDetails yt !! k)
  ∧ yt_Snippet_Title (ParseDuration lib yt).2 = yt_Snippet_Title yt.
Proof.
  split_and!.
  - unfold ParseDuration. intros e. fetch_cases; simpl; by try intros [=].
  - unfold ParseDuration. by intros ->.
  - unfold ParseDuration. intros v -> Hv. destruct v as [t| |]; [|done..].
    by destruct (Hv t).
  - unfold ParseDuration. intros t -> Hc. cbv zeta. rewrite decide_True; [done|].
    apply Contains_false in Hc. rewrite Split_absent by done. simpl. lia.
  - unfold ParseDuration. intros pre rest -> Hi. cbv zeta.
    rewrite (Split_step (pre +:+ "PT" +:+ rest)) by done. rewrite Hi.
    assert (slice_from (String.length pre + String.length "PT") (pre +:+ "PT" +:+ rest)
            = rest) as ->.
    { rewrite slice_from_add, slice_from_app. apply (slice_from_app "PT" rest). }
    pose proof (Split_length_pos rest "PT" ltac:(done)) as Hpos.
    rewrite decide_False by (simpl; lia).
    assert ((slice_to (String.length pre) (pre +:+ "PT" +:+ rest) :: Split rest "PT") !!! 1
            = upTo "PT" rest) as ->; [|done].
    pose proof (Split_head rest "PT" ltac:(done)) as Hh.
    destruct (Split rest "PT") as [|h t]; [done|]. simpl in Hh. by injection Hh as ->.
  - intros Hok.
    assert (∃ timeSecs, ParseDuration lib yt
              = (None, mkYouTubeVideoItem
                         (<["duration" := DInt64 timeSecs]> (yt_ContentDetails yt))
                         (yt_Snippet_Title yt))) as [timeSecs Heq].
    { revert Hok. unfold ParseDuration. fetch_cases; simpl; try done. eauto. }
    rewrite Heq. unfold ParseDuration. simpl. by rewrite lookup_insert_eq.
  - intros k Hk. unfold ParseDuration. fetch_cases; simpl; try done.
    by rewrite lookup_insert_ne.
  - unfold ParseDuration. by fetch_cases.
Qed.

(** X15. The payloads of the two Twitch variants. A video's payload has the
    title, the length in seconds, converted exactly when it is below
    [2^53], and a thumbnail only when the response lists one, the first
    then; a clip's payload has the title, the duration as it came and the
    medium thumbnail. Neither has any other key. *)
Theorem twitch_payloads (item : TwitchResponseItem) (clip : TwitchClipResponseItem) :
  twitchVideoItem item !! "name" = Some (JString (tw_Title item))
  ∧ twitchVideoItem item !! "duration" = Some (JNumber (float64_of_int (tw_Length item)))
  ∧ ((Z.abs (tw_Length item) ≤ 2 ^ 53)%Z →
       twitchVideoItem item !! "duration" = Some (JNumber (inject_Z (tw_Length item))))
  ∧ twitchVideoItem item !! "thumb" = JString <$> head (tw_Thumbnails item)
  ∧ (tw_Thumbnails item = [] → twitchVideoItem item !! "thumb" = None)
  ∧ (∀ k, k ∉ ["name"; "duration"; "thumb"] →
       twitchVideoItem item !! k = None ∧ twitchClipItem clip !! k = None)
  ∧ twitchClipItem clip !! "name" = Some (JString (clip_Title clip))
  ∧ twitchClipItem clip !! "duration" = Some (JNumber (clip_Length clip))
  ∧ twitchClipItem clip !! "thumb" = Some (JString (clip_Thumbnails_Url clip)).
Proof.
  assert (Hd : twitchVideoItem item !! "duration"
               = Some (JNumber (float64_of_int (tw_Length item)))).
  { unfold twitchVideoItem. destruct (tw_Thumbnails item).
    - apply lookup_insert_eq.
    - rewrite lookup_insert_ne by done. apply lookup_insert_eq. }
  split_and!.
  - unfold twitchVideoItem. destruct (tw_Thumbnails item).
    + rewrite lookup_insert_ne by done. apply lookup_insert_eq.
    + rewrite !lookup_insert_ne by done. apply lookup_insert_eq.
  - exact Hd.
  - intros Hsmall. rewrite Hd. unfold float64_of_int.
    by rewrite StreamFacts.round53_small.
  - unfold twitchVideoItem. destruct (tw_Thumbnails item); simpl.
    + by rewrite !lookup_insert_ne.
    + by rewrite lookup_insert_eq.
  - unfold twitchVideoItem. intros ->. by rewrite !lookup_insert_ne.
  - intros k Hk. rewrite !not_elem_of_cons in Hk. destruct Hk as (? & ? & ? & _).
    unfold twitchVideoItem, twitchClipItem. destruct (tw_Thumbnails item);
      by rewrite !lookup_insert_ne.
  - unfold twitchClipItem. rewrite !lookup_insert_ne by done. apply lookup_insert_eq.
  - unfold twitchClipItem. rewrite lookup_insert_ne by done. apply lookup_insert_eq.
  - unfold twitchClipItem. by rewrite lookup_insert_eq.
Qed.

(** X16. [FetchVideoMetadata] returns data exactly when the three steps of the
    probe succeed on the path and the duration encodes; the error of a
    failed step is returned behind the prefix
    [error decoding stream information: ]. A local stream probes the path
    its URL maps to and a remote stream its URL itself, and both pass an
    error on with empty, not nil, data. *)
Theorem video_probe_spec (fpath : string) schema :
  (∀ data,
     FetchVideoMetadata lib fpath = Ok data ↔
     avformat_NewContextForInput lib = None
     ∧ avformat_OpenInput lib fpath = None
     ∧ avformat_FindStreamInfo lib fpath = None
     ∧ json_Marshal lib
         (<["duration" := JNumber (float64_div lib (float64_of_int (avformat_Duration lib fpath))
                                     (float64_of_int 1000000))]> ∅) = Ok data)
  ∧ (∀ e,
       FetchVideoMetadata lib fpath = Err e →
       (∃ cause, e = "error decoding stream information: " +:+ cause
                 ∧ (avformat_NewContextForInput lib = Some cause
                    ∨ avformat_OpenInput lib fpath = Some cause
                    ∨ avformat_FindStreamInfo lib fpath = Some cause))
       ∨ (avformat_NewContextForInput lib = None
          ∧ avformat_OpenInput lib fpath = None
          ∧ avformat_FindStreamInfo lib fpath = None))
  ∧ (∀ e,
       FetchVideoMetadata lib (StreamDataFilePathFromUrl lib (Url schema)) = Err e →
       FetchMetadata lib (LocalVideoStream schema) = [Go [Callback schema (Some "") (Some e)]])
  ∧ (∀ e,
       FetchVideoMetadata lib (Url schema) = Err e →
       FetchMetadata lib (RemoteVideoStream schema) = [Go [Callback schema (Some "") (Some e)]])
  ∧ (∀ data,
       FetchVideoMetadata lib (StreamDataFilePathFromUrl lib (Url schema)) = Ok data →
       FetchMetadata lib (LocalVideoStream schema) = [Go [Callback schema (Some data) None]])
  ∧ (∀ data,
       FetchVideoMetadata lib (Url schema) = Ok data →
       FetchMetadata lib (RemoteVideoStream schema) = [Go [Callback schema (Some data) None]]).
Proof.
  split_and!.
  - intros data. unfold FetchVideoMetadata. fetch_cases; split; try done;
      try (by intros (? & ? & ? & ?)); try (by intros [= <-]).
  - intros e. unfold FetchVideoMetadata. fetch_cases; intros [= <-]; eauto 10.
  - intros e He. unfold FetchMetadata, LocalVideoStream_FetchMetadata. by rewrite He.
  - intros e He. unfold FetchMetadata, RemoteVideoStream_FetchMetadata. by rewrite He.
  - intros d Hd. unfold FetchMetadata, LocalVideoStream_FetchMetadata. by rewrite Hd.
  - intros d Hd. unfold FetchMetadata, RemoteVideoStream_FetchMetadata. by rewrite Hd.
Qed.

(** X14. A YouTube fetch from end to end. The id extracted from the URL goes
    into the request; of the items in the answer only the first is used;
    its duration text after [PT] is turned into seconds; and the payload is
    the item's [contentDetails] with the seconds under [duration] and the
    title under [name], replacing a [name] already there. An answer without
    items is reported as an error that quotes the id, with nil data. *)
Theorem YouTube_fetch_delivers (apiKey : string) schema id data :
  ytVideoIdFromUrl (Url schema) = Ok id →
  http_Get lib ("https://www.googleapis.com/youtube/v3/videos?id=" +:+ id
                +:+ "&key=" +:+ apiKey +:+ "&part=contentDetails,snippet")
    = Ok (Ok data) →
  (json_Unmarshal_YouTube lib data = Ok [] →
     FetchMetadata lib (YouTubeStream apiKey schema)
       = [Go [HttpGet ("https://www.googleapis.com/youtube/v3/videos?id=" +:+ id
                       +:+ "&key=" +:+ apiKey +:+ "&part=contentDetails,snippet");
              Callback schema None
                (Some ("no contentData found for video id " +:+ strconv_Quote lib id))]])
  ∧ (∀ item others text timeSecs jsonData,
       json_Unmarshal_YouTube lib data = Ok (item :: others) →
       yt_ContentDetails item !! "duration" = Some (DString ("PT" +:+ text)) →
       Contains text "PT" = false →
       HumanTimeToSeconds lib text = Ok timeSecs →
       json_Marshal_details lib
         (<["name" := DString (yt_Snippet_Title item)]>
            (<["duration" := DInt64 timeSecs]> (yt_ContentDetails item))) = Ok jsonData →
       FetchMetadata lib (YouTubeStream apiKey schema)
         = [Go [HttpGet ("https://www.googleapis.com/youtube/v3/videos?id=" +:+ id
                         +:+ "&key=" +:+ apiKey +:+ "&part=contentDetails,snippet");
                Callback schema (Some jsonData) None]]).
Proof.
  intros Hid Hget. split.
  - intros Hdec. unfold FetchMetadata, YouTubeStream_FetchMetadata, youTubeFetch.
    by rewrite Hid, Hget, Hdec.
  - intros item others text timeSecs jsonData Hdec Hdur Hno Hsecs Henc.
    assert (ParseDuration lib item
            = (None, mkYouTubeVideoItem
                       (<["duration" := DInt64 timeSecs]> (yt_ContentDetails item))
                       (yt_Snippet_Title item))) as Hparse.
    { unfold ParseDuration. rewrite Hdur. cbv zeta.
      rewrite (Split_step ("PT" +:+ text)) by done.
      rewrite (Index_HasPrefix _ _ (HasPrefix_app_refl "PT" text)).
      change (slice_from (0 + String.length "PT") ("PT" +:+ text)) with text.
      apply Contains_false in Hno. rewrite (Split_absent text "PT") by done.
      simpl. by rewrite Hsecs. }
    unfold FetchMetadata, YouTubeStream_FetchMetadata, youTubeFetch.
    rewrite Hid, Hget, Hdec, Hparse. simpl. by rewrite Henc.
Qed.

(** X17. The duration in a SoundCloud payload is the milliseconds divided by
    1000 and truncated toward zero: for a duration that is not negative it
    is a whole number of seconds, at most the exact quotient and less than
    one second below it, and it is the exact quotient when the duration is
    a whole number of seconds. *)
Theorem soundCloud_duration_bounds (title thumb : string) (d : Z) :
  (0 ≤ d ≤ 1000 * 2 ^ 53)%Z →
  ∃ q : Z,
    soundCloudVideoItem (mkSoundCloudResponseItem title d thumb) !! "duration"
      = Some (JNumber (inject_Z q))
    ∧ (1000 * q ≤ d < 1000 * q + 1000)%Z
    ∧ (inject_Z q <= inject_Z d / 1000)%Q
    ∧ (inject_Z d / 1000 < inject_Z q + 1)%Q
    ∧ ((d mod 1000 = 0)%Z → (inject_Z q == inject_Z d / 1000)%Q).
Proof.
  intros [Hlo Hhi]. exists (d ÷ 1000)%Z.
  assert (Hq : (d ÷ 1000 = d / 1000)%Z) by (apply Z.quot_div_nonneg; lia).
  pose proof (Z.div_mod d 1000 ltac:(lia)) as Hdm.
  pose proof (Z.mod_pos_bound d 1000 ltac:(lia)) as Hm.
  assert (Hrange : (1000 * (d ÷ 1000) ≤ d < 1000 * (d ÷ 1000) + 1000)%Z) by lia.
  split_and!.
  - rewrite StreamFacts.soundCloudVideoItem_duration. simpl. unfold float64_of_int.
    rewrite StreamFacts.round53_small; [done|]. lia.
  - lia.
  - lia.
  - unfold Qle, Qdiv, Qmult, Qinv, inject_Z. simpl. lia.
  - unfold Qlt, Qdiv, Qmult, Qinv, Qplus, inject_Z. simpl. lia.
  - intros Hz. unfold Qeq, Qdiv, Qmult, Qinv, inject_Z. simpl. lia.
Qed.

End Fetch.

Lemma YouTube_fetch_delivers_witness :
  FetchMetadata (R := taggedRef) exampleLibraries
    (YouTubeStream "key"
       (newSchema 0%Z "https://www.youtube.com/watch?v=abc123" "" STREAM_TYPE_YOUTUBE))
  = [Go [HttpGet "https://www.googleapis.com/youtube/v3/videos?id=abc123&key=key&part=contentDetails,snippet";
         Callback (newSchema 0%Z "https://www.youtube.com/watch?v=abc123" "" STREAM_TYPE_YOUTUBE)
           (Some "payload") None]].
Proof.
  destruct (YouTube_fetch_delivers (R := taggedRef) exampleLibraries "key"
              (newSchema 0%Z "https://www.youtube.com/watch?v=abc123" "" STREAM_TYPE_YOUTUBE)
              "abc123" "ok" eq_refl eq_refl) as [_ Hitem].
  exact (Hitem (mkYouTubeVideoItem {["duration" := DString "PT1H2M3S"]} "X") []
           "1H2M3S" 6%Z "payload" eq_refl eq_refl eq_refl eq_refl eq_refl).
Defined.

Lemma soundCloud_duration_bounds_witness :
  ∃ q : Z,
    soundCloudVideoItem (mkSoundCloudResponseItem "song" 1999 "avatar") !! "duration"
      = Some (JNumber (inject_Z q))
    ∧ (1000 * q ≤ 1999 < 1000 * q + 1000)%Z.
Proof.
  destruct (soundCloud_duration_bounds "song" "avatar" 1999) as (q & Hq & Hr & _).
  - split; [done|]. vm_compute. discriminate.
  - by exists q.
Defined.

Lemma ParseDuration_spec_witness :
  ParseDuration exampleLibraries
    (mkYouTubeVideoItem {["duration" := DString "PT1H2M3S"]} "X")
  = (None, mkYouTubeVideoItem (<["duration" := DInt64 6]> {["duration" := DString "PT1H2M3S"]}) "X").
Proof.
  destruct (ParseDuration_spec exampleLibraries
              (mkYouTubeVideoItem {["duration" := DString "PT1H2M3S"]} "X"))
    as (_ & _ & _ & _ & Hpt & _).
  exact (Hpt "" "1H2M3S" eq_refl eq_refl).
Defined.

Lemma twitch_payloads_witness :
  twitchVideoItem (mkTwitchResponseItem "vod" 60 []) !! "duration"
    = Some (JNumber (inject_Z 60))
  ∧ twitchVideoItem (mkTwitchResponseItem "vod" 60 []) !! "thumb" = None.
Proof.
  destruct (twitch_payloads (mkTwitchResponseItem "vod" 60 [])
              (mkTwitchClipResponseItem "clip" 30%Q "medium" "vod"))
    as (_ & _ & Hexact & _ & Hnone & _).
  split; [apply Hexact; vm_compute; discriminate|apply Hnone; reflexivity].
Defined.

Lemma video_probe_spec_witness :
  FetchMetadata (R := taggedRef) exampleLibraries
    (LocalVideoStream (newSchema 0%Z "b.mp4" "" STREAM_TYPE_LOCAL))
  = [Go [Callback (newSchema 0%Z "b.mp4" "" STREAM_TYPE_LOCAL) (Some "")
           (Some "error decoding stream information: no such file")]].
Proof.
  destruct (video_probe_spec (R := taggedRef) exampleLibraries "b.mp4"
              (newSchema 0%Z "b.mp4" "" STREAM_TYPE_LOCAL)) as (_ & _ & Hlocal & _).
  exact (Hlocal "error decoding stream information: no such file" eq_refl).
Defined.


Lemma identity_failure_stays_local_witness :
  FetchMetadata (R := taggedRef) exampleLibraries
    (YouTubeStream "key" (newSchema 0%Z "abc123" "" STREAM_TYPE_YOUTUBE))
  = [Callback (newSchema 0%Z "abc123" "" STREAM_TYPE_YOUTUBE) (Some "") (Some "invalid url")].
Proof.
  destruct (identity_failure_stays_local (R := taggedRef) exampleLibraries "key"
              (newSchema 0%Z "abc123" "" STREAM_TYPE_YOUTUBE)) as (H & _).
  apply H. reflexivity.
Defined.

End FetchFacts.

(** ** More of the socket server *)
Module ServerMore.
Import GoStrings GoStringsFacts Server ServerFacts.

Section EventBus.
Context {Connection Namespace WsConn Request World : Type}.
Abbreviation Server := (@Server Connection Namespace WsConn Request World).
Abbreviation ServerEventCallback := (@ServerEventCallback Connection World).
Implicit Types (s : Server) (callback : ServerEventCallback) (conn : Connection) (w : World).

Lemma Emit_listeners eventName conn s w :
  Emit eventName conn s w = foldl (λ w callback, callback conn w) w (listeners eventName s).
Proof. unfold Emit, listeners. by destruct (callbacks s !! eventName). Qed.

(** X18. A listener registered last runs last: emitting after [On] is emitting
    before it and then calling the new listener on the state that leaves.
    Registering under another name changes nothing for this one, and [On]
    leaves the two handlers of the server alone. *)
Theorem Emit_after_On eventName callback conn s w :
  Emit eventName conn (On eventName callback s) w = callback conn (Emit eventName conn s w)
  ∧ (∀ other, other ≠ eventName →
       Emit eventName conn (On other callback s) w = Emit eventName conn s w)
  ∧ connHandler (On eventName callback s) = connHandler s
  ∧ nsHandler (On eventName callback s) = nsHandler s.
Proof.
  split_and!; [| |done..].
  - by rewrite !Emit_listeners, listeners_On, foldl_app.
  - intros other Hne. by rewrite !Emit_listeners, listeners_On_ne.
Qed.

End EventBus.

Section Admission.
Context {Connection Namespace WsConn Request World : Type}.
Context (Referer : Request → string) (URL_String : Request → string).
Context (Join : Connection → string → World → World) (Name : Namespace → string).
Context (NamespaceFromRequest : Request → result string).
Context (websocket_Upgrade : Request → gmap string string → nat → nat → result WsConn).
Abbreviation Server' := (@Server Connection Namespace WsConn Request World).
Abbreviation St := (@St Connection World).
Abbreviation run :=
  (ServeHTTP Referer URL_String Join Name NamespaceFromRequest websocket_Upgrade).
Abbreviation resolved := (resolvedName NamespaceFromRequest).
Abbreviation hdr := (admissionHeader Referer).
Abbreviation before := (stepsBeforeUpgrade Referer NamespaceFromRequest).
Abbreviation resolvedWorld := (worldAfterResolution NamespaceFromRequest).

(** The namespace a request is admitted to: the one found under the
    resolved name, or the one [NewNamespace] returns. *)
Definition resolvedNamespace (s : Server') (r : Request) (st : St) : Namespace :=
  match NamespaceByName (nsHandler s) (resolved r) (world st) with
  | Some namespace => namespace
  | None => (NewNamespace (nsHandler s) (resolved r) (world st)).1
  end.

(** The state [ServeHTTP] leaves once the upgrade has succeeded. *)
Definition admitted (s : Server') (r : Request) (st : St) (conn : WsConn) : St :=
  let created := NewConnection (connHandler s) "" conn r (resolvedWorld s r st) in
  let socketConn := created.1 in
  let nsName := Name (resolvedNamespace s r st) in
  mkSt
    (Handle (connHandler s) socketConn
       (Emit "connection" socketConn s (Join socketConn nsName created.2)))
    (hdr r st)
    (steps st ++ before s r st
       ++ [ConnectionCreated socketConn; Joined socketConn nsName;
           Emitted "connection" socketConn; HandedOff socketConn]).

Lemma ServeHTTP_run (s : Server') (r : Request) (st : St) :
  (run s r st).2
    = match websocket_Upgrade r (hdr r st) MAX_READ_BUF_SIZE MAX_WRITE_BUF_SIZE with
      | Err err =>
          mkSt (resolvedWorld s r st) (hdr r st)
            (steps st ++ before s r st ++ [Logged (LogUpgradeFailed (URL_String r) err)])
      | Ok conn => admitted s r st conn
      end.
Proof.
  unfold ServeHTTP, admitted, resolvedNamespace, worldAfterResolution, stepsBeforeUpgrade,
    resolvedName, admissionHeader.
  unfold mbind, M_bind, mret, M_ret, logPrintf, did, Header_Set, readWorld, updWorld,
    onWorld, getHeader. simpl.
  destruct (NamespaceFromRequest r) as [nsName|e]; simpl;
    destruct (NamespaceByName (nsHandler s) _ (world st)) as [ns|] eqn:Hns; simpl;
    try destruct (NewNamespace (nsHandler s) _ (world st)) as [ns w'] eqn:Hnew; simpl;
    destruct (websocket_Upgrade r _ MAX_READ_BUF_SIZE MAX_WRITE_BUF_SIZE) as [conn|err];
    simpl; try destruct (NewConnection (connHandler s) "" conn r _) as [c w''] eqn:Hc;
    simpl; by rewrite <- ?app_assoc.
Qed.

(** X19. When the upgrade succeeds, [ServeHTTP] creates one connection from the
    upgraded transport, joins it to the namespace under the name that
    namespace reports, runs the listeners of ["connection"] on it and only
    then hands it to the connection handler; the program state passes
    through these four in that order. *)
Theorem ServeHTTP_admission (s : Server') (r : Request) (st : St) (conn : WsConn) :
  websocket_Upgrade r (hdr r st) MAX_READ_BUF_SIZE MAX_WRITE_BUF_SIZE = Ok conn →
  (run s r st).2 = admitted s r st conn
  ∧ (is_Some (NamespaceByName (nsHandler s) (resolved r) (world st)) →
       Forall (λ e, ∀ n, e ≠ NamespaceCreated n) (before s r st)).
Proof.
  intros Hup. split; [by rewrite ServeHTTP_run, Hup|].
  intros [ns Hns]. unfold stepsBeforeUpgrade. rewrite Hns.
  destruct (NamespaceFromRequest r); repeat (apply Forall_cons; split; [done|]);
    apply Forall_nil; done.
Qed.

(** X20. Whether the upgrade succeeds or not, [ServeHTTP] sets the allowed
    origin to the origin of the referer and allows credentials, leaves the
    other fields of the header alone, only ever adds to the steps taken,
    creates a namespace exactly when none is found under the resolved name,
    and then one of that name, and falls back to the default namespace
    exactly when the request names none. *)
Theorem ServeHTTP_always (s : Server') (r : Request) (st : St) :
  header (run s r st).2 !! "Access-Control-Allow-Origin" = Some (getClientOrigin Referer r)
  ∧ header (run s r st).2 !! "Access-Control-Allow-Credentials" = Some "true"
  ∧ (∀ k, k ≠ "Access-Control-Allow-Origin" → k ≠ "Access-Control-Allow-Credentials" →
       header (run s r st).2 !! k = header st !! k)
  ∧ (∃ new, steps (run s r st).2 = steps st ++ new
       ∧ (∀ n, NamespaceCreated n ∈ new ↔
               n = resolved r
               ∧ NamespaceByName (nsHandler s) (resolved r) (world st) = None)
       ∧ (∀ n, Logged (LogDefaulting n) ∈ new ↔
               n = DEFAULT_NAMESPACE ∧ is_Ok (NamespaceFromRequest r) = false)
       ∧ (is_Ok (NamespaceFromRequest r) = false → resolved r = DEFAULT_NAMESPACE)).
Proof.
  assert (Hh : header (run s r st).2 = hdr r st).
  { rewrite ServeHTTP_run. by destruct (websocket_Upgrade _ _ _ _). }
  split_and!.
  - rewrite Hh. unfold admissionHeader. rewrite lookup_insert_ne by done.
    apply lookup_insert_eq.
  - rewrite Hh. apply lookup_insert_eq.
  - intros k H1 H2. rewrite Hh. unfold admissionHeader. by rewrite !lookup_insert_ne.
  - rewrite ServeHTTP_run.
    destruct (websocket_Upgrade _ _ _ _) as [conn|err]; simpl;
      eexists; (split; [reflexivity|]);
      unfold stepsBeforeUpgrade, resolvedName;
      destruct (NamespaceFromRequest r) as [nsName|e]; simpl;
      destruct (NamespaceByName (nsHandler s) _ (world st)) as [ns|]; simpl;
      (split_and!; [| |done]); intros n;
      rewrite ?elem_of_cons, ?elem_of_nil; split;
      try (intros [[= <-] _]; tauto); try (intros [_ [=]]);
      try (intros [-> _]; tauto); try (intros [-> ?]; tauto);
      intros Hor; repeat (destruct Hor as [Hor|Hor]; try discriminate Hor);
      try done; try (injection Hor as ->; done).
Qed.

(** X21. [getClientOrigin] is the wildcard exactly when the referer has no
    [://]. Otherwise it is what precedes the first [://], then [://], then
    the host: what follows up to the next ['/'] or [://]. In particular the
    origin of [scheme://host/path] is [scheme://host], and the host of an
    origin never has a ['/'] in it. *)
Theorem getClientOrigin_spec (r : Request) :
  (Contains (Referer r) "://" = false → getClientOrigin Referer r = "*")
  ∧ (∀ scheme rest,
       Referer r = scheme +:+ "://" +:+ rest →
       Index (Referer r) "://" = Some (String.length scheme) →
       getClientOrigin Referer r = scheme +:+ "://" +:+ upTo "/" (upTo "://" rest)
       ∧ Contains (upTo "/" (upTo "://" rest)) "/" = false)
  ∧ (∀ scheme host path,
       Referer r = scheme +:+ "://" +:+ host +:+ "/" +:+ path →
       Contains scheme ":" = false → Contains host "/" = false →
       Contains (host +:+ "/" +:+ path) "://" = false →
       getClientOrigin Referer r = scheme +:+ "://" +:+ host).
Proof.
  assert (Hgen : ∀ scheme rest,
       Referer r = scheme +:+ "://" +:+ rest →
       Index (Referer r) "://" = Some (String.length scheme) →
       getClientOrigin Referer r = scheme +:+ "://" +:+ upTo "/" (upTo "://" rest)).
  { intros scheme rest Href Hi. unfold getClientOrigin. cbv zeta.
    rewrite (Split_step (Referer r)) by done. rewrite Hi, Href.
    assert (slice_from (String.length scheme + String.length "://")
              (scheme +:+ "://" +:+ rest) = rest) as ->.
    { rewrite slice_from_add, slice_from_app. apply (slice_from_app "://" rest). }
    rewrite slice_to_app.
    pose proof (Split_length_pos rest "://" ltac:(done)) as Hpos.
    rewrite decide_True by (simpl; lia).
    assert ((scheme :: Split rest "://") !!! 1 = upTo "://" rest) as ->.
    { pose proof (Split_head rest "://" ltac:(done)) as Hh.
      destruct (Split rest "://") as [|h t]; [done|]. simpl in Hh. by injection Hh as ->. }
    do 2 f_equal. apply IdentityFacts.lookup_total_head, Split_head. done. }
  split_and!.
  - intros Hc%Contains_false. unfold getClientOrigin. cbv zeta.
    by rewrite Split_absent by done.
  - intros scheme rest Href Hi. split; [by apply Hgen|]. by apply upTo_no_sep.
  - intros scheme host path Href Hs%(Contains_char_false _ ":"%char)
      Hh%(Contains_char_false _ "/"%char) Hp.
    rewrite (Hgen scheme (host +:+ "/" +:+ path)).
    + rewrite (upTo_absent "://") by done.
      by rewrite (upTo_after_free host "/"%char "" path Hh).
    + done.
    + rewrite Href. apply (Index_after_free scheme ":"%char "//"). done.
Qed.

End Admission.

(** An admission for the examples: the request names no namespace and the
    upgrade succeeds. *)
Definition exampleAdmission :=
  ServeHTTP (Connection := nat) (Namespace := string) (WsConn := unit)
    (World := exampleWorld)
    (λ r : string, r) (λ _, "/ws") (λ c ns w, (w.1, w.2 ++ [c])) (λ ns, ns)
    (λ _, Err "no room") (λ _ _ _ _, Ok tt).

Lemma ServeHTTP_admission_witness :
  (exampleAdmission (On "connection" (markingListener 1) exampleServer)
     "http://example.org/room" (mkSt ([], []) ∅ [])).2
  = mkSt (["lobby"], [0; 1])
      (<["Access-Control-Allow-Credentials" := "true"]>
         (<["Access-Control-Allow-Origin" := "http://example.org"]> ∅))
      [Logged (LogHandling "http://example.org");
       Logged (LogDefaulting "lobby");
       Logged (LogCreating "lobby");
       NamespaceCreated "lobby";
       UpgradeAttempted;
       ConnectionCreated 0; Joined 0 "lobby"; Emitted "connection" 0; HandedOff 0].
Proof.
  exact (proj1 (ServeHTTP_admission
                  (Connection := nat) (Namespace := string) (WsConn := unit)
                  (World := exampleWorld)
                  (λ r : string, r) (λ _, "/ws") (λ c ns w, (w.1, w.2 ++ [c])) (λ ns, ns)
                  (λ _, Err "no room") (λ _ _ _ _, Ok tt)
                  (On "connection" (markingListener 1) exampleServer)
                  "http://example.org/room" (mkSt ([], []) ∅ []) tt eq_refl)).
Defined.

Lemma Emit_after_On_witness :
  Emit "connection" 7
    (On "connection" (markingListener 2) (On "connection" (markingListener 1) exampleServer))
    ([], [])
  = markingListener 2 7
      (Emit "connection" 7 (On "connection" (markingListener 1) exampleServer) ([], []))
  ∧ Emit "connection" 7
      (On "message" (markingListener 2) (On "connection" (markingListener 1) exampleServer))
      ([], [])
    = Emit "connection" 7 (On "connection" (markingListener 1) exampleServer) ([], []).
Proof.
  split.
  - exact (proj1 (Emit_after_On "connection" (markingListener 2) 7
                    (On "connection" (markingListener 1) exampleServer) ([], []))).
  - destruct (Emit_after_On "connection" (markingListener 2) 7
                (On "connection" (markingListener 1) exampleServer) ([], []))
      as (_ & Hother & _).
    apply (Hother "message"). done.
Defined.

Lemma ServeHTTP_always_witness :
  header (exampleAdmission exampleServer "http://example.org/room"
            (mkSt ([], []) {["Vary" := "Origin"]} [])).2 !! "Vary" = Some "Origin"
  ∧ header (exampleAdmission exampleServer "http://example.org/room"
              (mkSt ([], []) {["Vary" := "Origin"]} [])).2 !! "Access-Control-Allow-Origin"
    = Some "http://example.org".
Proof.
  destruct (ServeHTTP_always
              (Connection := nat) (Namespace := string) (WsConn := unit)
              (World := exampleWorld)
              (λ r : string, r) (λ _, "/ws") (λ c ns w, (w.1, w.2 ++ [c])) (λ ns, ns)
              (λ _, Err "no room") (λ _ _ _ _, Ok tt)
              exampleServer "http://example.org/room"
              (mkSt ([], []) {["Vary" := "Origin"]} [])) as (Horigin & _ & Hother & _).
  split.
  - apply (Hother "Vary"); done.
  - exact Horigin.
Defined.

Lemma getClientOrigin_spec_witness :
  getClientOrigin (λ r : string, r) "https://example.org/room/7?x=1" = "https://example.org"
  ∧ getClientOrigin (λ r : string, r) "" = "*".
Proof.
  destruct (getClientOrigin_spec (λ r : string, r) "https://example.org/room/7?x=1")
    as (_ & _ & Hurl).
  destruct (getClientOrigin_spec (λ r : string, r) "") as (Hnone & _).
  split.
  - exact (Hurl "https" "example.org" "room/7?x=1" eq_refl eq_refl eq_refl eq_refl).
  - exact (Hnone eq_refl).
Defined.

End ServerMore.

(** ** Streams as parent references *)
Module CompositionFacts.
Import GoStrings GoStringsFacts Stream RefGraphFacts StreamFacts.

Section Composition.
Context {R : Type}.
Implicit Types (s : @Stream R) (m : @StreamMetaSchema (@Stream R)).

(** X6. A stream is a reference whose identity is its URL, so of two streams
    with the same URL only the first can be added as a parent: the second
    [AddParentRef] returns false and changes nothing, of whichever variants
    the two are, and removing by either removes the one stored. *)
Theorem same_URL_one_parent s s' m :
  GetStreamURL s = GetStreamURL s' →
  AddParentRef s' (AddParentRef s m).2 = (false, (AddParentRef s m).2)
  ∧ RemoveParentRef s' (AddParentRef s m).2 = RemoveParentRef s (AddParentRef s m).2
  ∧ (RemoveParentRef s' (AddParentRef s m).2).1 = true
  ∧ (ParentRefs m !! GetStreamURL s = None →
       ParentRefs (AddParentRef s m).2 !! GetStreamURL s' = Some s).
Proof.
  intros Hurl.
  assert (Hid : UUID s' = UUID s) by (symmetry; exact Hurl).
  assert (Hin : is_Some (ParentRefs (AddParentRef s m).2 !! UUID s)).
  { unfold AddParentRef. destruct (ParentRefs m !! UUID s) eqn:Hk; simpl.
    - by rewrite Hk.
    - by rewrite lookup_insert_eq. }
  split_and!.
  - by apply AddParentRef_twice.
  - unfold RemoveParentRef. by rewrite Hid.
  - unfold RemoveParentRef. rewrite Hid. by destruct Hin as [x ->].
  - intros Hnew. change (GetStreamURL s') with (UUID s'). rewrite Hid.
    unfold AddParentRef. change (GetStreamURL s) with (UUID s) in Hnew. rewrite Hnew.
    simpl. apply lookup_insert_eq.
Qed.

End Composition.

Lemma same_URL_one_parent_witness :
  AddParentRef (R := @Stream taggedRef) (NewRemoteVideoStream 7%Z "https://h/a.mp4")
    (AddParentRef (NewLocalVideoStream 0%Z "https://h/a.mp4") (NewStreamMeta 0%Z)).2
  = (false, (AddParentRef (NewLocalVideoStream 0%Z "https://h/a.mp4") (NewStreamMeta 0%Z)).2).
Proof.
  destruct (same_URL_one_parent (R := taggedRef)
              (NewLocalVideoStream 0%Z "https://h/a.mp4")
              (NewRemoteVideoStream 7%Z "https://h/a.mp4") (NewStreamMeta 0%Z) eq_refl)
    as (H & _).
  exact H.
Defined.

End CompositionFacts.
